(** * Knight Commander: turn-resolution engine

    A shallow embedding of the engine sources (grid.ts, criticals-core.ts,
    damage.ts, facing-arcs.ts, terrain.ts, resolve-attack.ts and the
    pathfinder and ion-shield step of execute-turn.ts), followed by the
    properties of the engine that are stated in the specification.

    Conventions of the embedding.
    - A JavaScript [number] that the engine only ever uses as a whole number
      (grid coordinates, armour points, die values, action points) is a [Z].
      A [number] that is a continuous quantity (board positions, angles,
      terrain rectangles, segment parameters) is a rational [Q].
    - The angle arithmetic of facing-arcs.ts is double-precision arithmetic:
      a finite double is the rational it denotes, and every [+] and [-] of
      the source is the exact operation followed by [fl], rounding to the
      nearest double with ties to even; [%] is exact on doubles. NaN, the
      infinities (hence overflow) and the sign of zero are outside the
      embedding.
    - [Math.atan2] is transcendental; the bearing in degrees it yields, the
      double [Math.atan2(dy, dx) * 180 / Math.PI], is a parameter [atan2Deg]
      of the geometry.
    - Objects that the engine mutates in place are threaded explicitly: a cell
      reference is the index of the cell in its grid's [cells] array, a Knight
      reference is a player id into the pair of Knights.
    - [Math.random] is a tape of the values it returns together with a
      cursor. *)

From Stdlib Require Import ZArith QArith Qround Qabs Qpower Lia Lqa String List.
From stdpp Require Import gmap strings list fin_maps.

Local Open Scope Z_scope.
#[local] Set Warnings "-clear-no-such-hyp".

(* ===================================================================== *)
(** * grid.ts *)
(* ===================================================================== *)

Inductive LocationGroup := G1 | G2 | G3 | G4 | G5 | G6 | G7 | G8.

#[global] Instance LocationGroup_eq_dec : EqDecision LocationGroup.
Proof. solve_decision. Defined.

Record GridCell := mkGridCell {
  cell_id : string;
  cell_x : Z;
  cell_y : Z;
  group : LocationGroup;
  armorPoints : Z;
  maxArmorPoints : Z;
  criticallyDamaged : bool;
}.

Record Grid := mkGrid {
  width : Z;
  height : Z;
  cells : list GridCell;
}.

Record GridTemplateCell := mkGridTemplateCell {
  t_x : Z;
  t_y : Z;
  t_group : LocationGroup;
  t_maxArmorPoints : Z;
}.

Record GridTemplate := mkGridTemplate {
  t_width : Z;
  t_height : Z;
  t_cells : list GridTemplateCell;
}.

(** [String.fromCharCode(65 + y)] for the rows the grids use. *)
Definition rowLetter (y : Z) : string :=
  String (Ascii.ascii_of_N (Z.to_N (65 + y))) EmptyString.

(** Decimal rendering of a column number ([`${x + 1}`]). *)
Fixpoint decimalDigits (fuel : nat) (n : Z) (acc : string) : string :=
  match fuel with
  | O => acc
  | S fuel' =>
      let d := String (Ascii.ascii_of_N (Z.to_N (48 + n mod 10))) EmptyString in
      if n <? 10 then (d ++ acc)%string
      else decimalDigits fuel' (n / 10) (d ++ acc)%string
  end.

Definition showZ (n : Z) : string :=
  if n <? 0 then ("-" ++ decimalDigits 20 (- n) EmptyString)%string
  else decimalDigits 20 n EmptyString.

Definition cellId (x y : Z) : string := (rowLetter y ++ showZ (x + 1))%string.

Definition instantiateGrid (template : GridTemplate) : Grid :=
  {| width := t_width template;
     height := t_height template;
     cells := map (fun c =>
                {| cell_id := cellId (t_x c) (t_y c);
                   cell_x := t_x c;
                   cell_y := t_y c;
                   group := t_group c;
                   armorPoints := t_maxArmorPoints c;
                   maxArmorPoints := t_maxArmorPoints c;
                   criticallyDamaged := false |}) (t_cells template) |}.

(** [cells.find(p)]: the first cell that satisfies [p], with its index (the
    index stands for the object reference that [find] returns). *)
Fixpoint findCell (p : GridCell -> bool) (l : list GridCell) : option (nat * GridCell) :=
  match l with
  | [] => None
  | c :: l' =>
      if p c then Some (O, c)
      else match findCell p l' with
           | Some (i, c') => Some (S i, c')
           | None => None
           end
  end.

Definition hasId (cellId : string) (c : GridCell) : bool :=
  String.eqb (cell_id c) cellId.

Definition atCoord (x y : Z) (c : GridCell) : bool :=
  (cell_x c =? x) && (cell_y c =? y).

Definition getCell (g : Grid) (x y : Z) : option (nat * GridCell) :=
  findCell (atCoord x y) (cells g).

(* ===================================================================== *)
(** * criticals-core.ts *)
(* ===================================================================== *)

Inductive WeaponMount := CARAPACE | TORSO | ARM_LEFT | ARM_RIGHT | OTHER.

#[global] Instance WeaponMount_eq_dec : EqDecision WeaponMount.
Proof. solve_decision. Defined.

Record MountedWeapon := mkMountedWeapon {
  w_name : string;
  mount : WeaponMount;
  disabled : bool;
}.

Record KnightState := mkKnightState {
  k_name : string;
  grid : Grid;
  maxActionPoints : Z;
  movementPenalty : Z;
  canRotateIonShields : bool;
  weapons : list MountedWeapon;
}.

(** Field writes. *)
Definition set_armorPoints (v : Z) (c : GridCell) : GridCell :=
  {| cell_id := cell_id c; cell_x := cell_x c; cell_y := cell_y c;
     group := group c; armorPoints := v;
     maxArmorPoints := maxArmorPoints c;
     criticallyDamaged := criticallyDamaged c |}.

Definition set_criticallyDamaged (v : bool) (c : GridCell) : GridCell :=
  {| cell_id := cell_id c; cell_x := cell_x c; cell_y := cell_y c;
     group := group c; armorPoints := armorPoints c;
     maxArmorPoints := maxArmorPoints c;
     criticallyDamaged := v |}.

Definition set_disabled (v : bool) (w : MountedWeapon) : MountedWeapon :=
  {| w_name := w_name w; mount := mount w; disabled := v |}.

Definition set_cells (cs : list GridCell) (k : KnightState) : KnightState :=
  {| k_name := k_name k;
     grid := {| width := width (grid k); height := height (grid k); cells := cs |};
     maxActionPoints := maxActionPoints k;
     movementPenalty := movementPenalty k;
     canRotateIonShields := canRotateIonShields k;
     weapons := weapons k |}.

Definition set_weapons (ws : list MountedWeapon) (k : KnightState) : KnightState :=
  {| k_name := k_name k; grid := grid k;
     maxActionPoints := maxActionPoints k;
     movementPenalty := movementPenalty k;
     canRotateIonShields := canRotateIonShields k;
     weapons := ws |}.

Definition set_maxActionPoints (v : Z) (k : KnightState) : KnightState :=
  {| k_name := k_name k; grid := grid k;
     maxActionPoints := v;
     movementPenalty := movementPenalty k;
     canRotateIonShields := canRotateIonShields k;
     weapons := weapons k |}.

Definition set_movementPenalty (v : Z) (k : KnightState) : KnightState :=
  {| k_name := k_name k; grid := grid k;
     maxActionPoints := maxActionPoints k;
     movementPenalty := v;
     canRotateIonShields := canRotateIonShields k;
     weapons := weapons k |}.

Definition set_canRotateIonShields (v : bool) (k : KnightState) : KnightState :=
  {| k_name := k_name k; grid := grid k;
     maxActionPoints := maxActionPoints k;
     movementPenalty := movementPenalty k;
     canRotateIonShields := v;
     weapons := weapons k |}.

(** The cell object at index [i] of the Knight's grid is overwritten. *)
Definition writeCell (i : nat) (c : GridCell) (k : KnightState) : KnightState :=
  set_cells (<[i := c]> (cells (grid k))) k.

(** [weapons.filter(w => w.mount === m).forEach(w => (w.disabled = true))]:
    the weapon objects are shared with [knight.weapons], so the array keeps
    its order and every weapon on mount [m] gets its flag set. *)
Definition disableMount (m : WeaponMount) (ws : list MountedWeapon) : list MountedWeapon :=
  map (fun w => if decide (mount w = m) then set_disabled true w else w) ws.

Definition applyCoreCriticalEffect (knight : KnightState) (g : LocationGroup) : KnightState :=
  match g with
  | G1 => set_weapons (disableMount CARAPACE (weapons knight)) knight
  | G2 => knight
  | G3 => knight
  | G4 => set_canRotateIonShields false knight
  | G5 => set_maxActionPoints (Z.min (maxActionPoints knight) 2) knight
  | G6 => set_weapons (disableMount TORSO (weapons knight)) knight
  | G7 => knight
  | G8 => set_movementPenalty (movementPenalty knight + 1) knight
  end.

Definition isGroup3 (c : GridCell) : bool := bool_decide (group c = G3).

(** [mid = (width - 1) / 2]; the cells are at whole columns, the midline of an
    even-width grid is not. *)
Definition midline (g : Grid) : Q := (inject_Z (width g - 1) / 2)%Q.

Definition Qltb (a b : Q) : bool := negb (Qle_bool b a).

Definition leftOfMid (g : Grid) (c : GridCell) : bool :=
  Qltb (inject_Z (cell_x c)) (midline g).

Definition rightOfMid (g : Grid) (c : GridCell) : bool :=
  Qltb (midline g) (inject_Z (cell_x c)).

Definition leftArmCells (g : Grid) : list GridCell :=
  List.filter (leftOfMid g) (List.filter isGroup3 (cells g)).

Definition rightArmCells (g : Grid) : list GridCell :=
  List.filter (rightOfMid g) (List.filter isGroup3 (cells g)).

Definition bothCrit (arm : list GridCell) : bool :=
  (2 <=? length arm)%nat && forallb criticallyDamaged arm.

Definition updateArmDisablesIfNeeded (knight : KnightState) : KnightState :=
  let leftBothCrit := bothCrit (leftArmCells (grid knight)) in
  let rightBothCrit := bothCrit (rightArmCells (grid knight)) in
  let knight1 :=
    if leftBothCrit then set_weapons (disableMount ARM_LEFT (weapons knight)) knight
    else knight in
  if rightBothCrit then set_weapons (disableMount ARM_RIGHT (weapons knight1)) knight1
  else knight1.

Definition markCellCriticallyDamaged (knight : KnightState) (cellId : string) : KnightState :=
  match findCell (hasId cellId) (cells (grid knight)) with
  | None => knight
  | Some (i, cell) =>
      if criticallyDamaged cell then knight
      else
        let knight1 := writeCell i (set_criticallyDamaged true cell) knight in
        let knight2 := applyCoreCriticalEffect knight1 (group cell) in
        if decide (group cell = G3) then updateArmDisablesIfNeeded knight2
        else knight2
  end.

(* ===================================================================== *)
(** * damage.ts *)
(* ===================================================================== *)

(** [cell] is a reference to a cell object of the Knight's grid: its index
    in [knight.grid.cells]. *)
Definition applyDamageToCell (knight : KnightState) (cell : nat) (damage : Z) : KnightState :=
  match cells (grid knight) !! cell with
  | None => knight
  | Some c =>
      if criticallyDamaged c then knight
      else
        let c1 := set_armorPoints (Z.max 0 (armorPoints c - damage)) c in
        let knight1 := writeCell cell c1 knight in
        if armorPoints c1 =? 0 then markCellCriticallyDamaged knight1 (cell_id c1)
        else knight1
  end.

Definition critCount (knight : KnightState) : nat :=
  length (List.filter criticallyDamaged (cells (grid knight))).

Definition isKnightDestroyed (knight : KnightState) : bool :=
  (6 <=? critCount knight)%nat.

(* ===================================================================== *)
(** * facing-arcs.ts *)
(* ===================================================================== *)

Record Vec2 := mkVec2 { vx : Q; vy : Q }.

Inductive FacingArc := FRONT | RIGHT | REAR | LEFT.

#[global] Instance FacingArc_eq_dec : EqDecision FacingArc.
Proof. solve_decision. Defined.

(** [Math.trunc]: the integer part, towards zero. *)
Definition Qtrunc (q : Q) : Z :=
  if Qle_bool 0 q then Qfloor q else Qceiling q.

(** The JavaScript remainder [a % n]: [a - n * trunc(a / n)], with the sign of
    the dividend. On doubles it is exact: the result is a double. *)
Definition jsRem (a n : Q) : Q := (a - n * inject_Z (Qtrunc (a / n)))%Q.

(** The binary exponent of a non-zero rational: the [e] with
    [2^e <= |q| < 2^(e+1)]. *)
Definition Qlog2 (q : Q) : Z :=
  let g := Z.log2 (Z.abs (Qnum q)) - Z.log2 (Zpos (Qden q)) in
  if Qle_bool (2 ^ g) (Qabs q) then g else g - 1.

(** The exponent of the unit in the last place of a double of the magnitude
    of [q]: 53 significant bits, and the spacing 2^-1074 of the subnormals at
    the bottom. *)
Definition ulpExp (q : Q) : Z := Z.max (Qlog2 q - 52) (-1074).

(** The nearest whole number, ties to the even one. *)
Definition roundEven (x : Q) : Z :=
  let f := Qfloor x in
  match (x - inject_Z f ?= 1 # 2)%Q with
  | Lt => f
  | Gt => f + 1
  | Eq => if Z.even f then f else f + 1
  end.

(** The double nearest to [q] (round to nearest, ties to even): what a
    JavaScript [+] or [-] stores of its exact result. *)
Definition fl (q : Q) : Q :=
  if Qeq_bool q 0 then 0%Q
  else let k := ulpExp q in Qred (inject_Z (roundEven (q / 2 ^ k)) * 2 ^ k).

Definition normDeg (d : Q) : Q := jsRem (fl (jsRem d 360 + 360)) 360.

Definition normalizeDeltaDeg (delta : Q) : Q :=
  let d := fl (jsRem (fl (jsRem (fl (delta + 180)) 360 + 360)) 360 - 180) in
  if Qeq_bool d (-180) then 180%Q else d.

Definition arcOfDelta (delta : Q) : FacingArc :=
  if Qle_bool (Qabs delta) 45 then FRONT
  else if Qle_bool 135 (Qabs delta) then REAR
  else if Qltb 0 delta then RIGHT else LEFT.

Definition canFireFromMountIntoArc (m : WeaponMount) (arc : FacingArc) : bool :=
  match m with
  | CARAPACE => true
  | TORSO => bool_decide (arc = FRONT)
  | ARM_LEFT => bool_decide (arc = FRONT) || bool_decide (arc = LEFT)
  | ARM_RIGHT => bool_decide (arc = FRONT) || bool_decide (arc = RIGHT)
  | OTHER => true
  end.

Section Bearing.
(** [atan2Deg dy dx] stands for [Math.atan2(dy, dx) * 180 / Math.PI]. *)
Variable atan2Deg : Q -> Q -> Q.

Definition bearingDeg (from to : Vec2) : Q :=
  normDeg (atan2Deg (fl (vy to - vy from)) (fl (vx to - vx from))).

(** The signed delta that [incomingArc] classifies. *)
Definition incomingDelta (defenderPos : Vec2) (defenderFacingDeg : Q) (attackerPos : Vec2) : Q :=
  let b := bearingDeg defenderPos attackerPos in
  normalizeDeltaDeg (fl (b - normDeg defenderFacingDeg)).

Definition incomingArc (defenderPos : Vec2) (defenderFacingDeg : Q) (attackerPos : Vec2) : FacingArc :=
  arcOfDelta (incomingDelta defenderPos defenderFacingDeg attackerPos).

Definition relativeArc (originPos : Vec2) (originFacingDeg : Q) (pointPos : Vec2) : FacingArc :=
  incomingArc originPos originFacingDeg pointPos.

Definition canFireAtTarget (attackerPos : Vec2) (attackerFacingDeg : Q)
    (targetPos : Vec2) (m : WeaponMount) : bool :=
  canFireFromMountIntoArc m (relativeArc attackerPos attackerFacingDeg targetPos).
End Bearing.

(** A bearing oracle that is exact on the eight compass directions, where
    [Math.atan2] yields a whole multiple of 45 degrees; used to run the engine
    on concrete positions that lie on those directions. Off them it answers 0,
    which is not the arc tangent. *)
Definition compassAtan2Deg (dy dx : Q) : Q :=
  match (Qnum dy ?= 0)%Z, (Qnum dx ?= 0)%Z with
  | Eq, Lt => 180
  | Eq, _ => 0
  | Gt, Eq => 90
  | Lt, Eq => -90
  | Gt, Gt => if Qeq_bool dy dx then 45 else 0
  | Gt, Lt => if Qeq_bool dy (- dx) then 135 else 0
  | Lt, Gt => if Qeq_bool (- dy) dx then -45 else 0
  | Lt, Lt => if Qeq_bool dy dx then -135 else 0
  end%Q.

(* ===================================================================== *)
(** * terrain.ts *)
(* ===================================================================== *)

Inductive TerrainType := HARD | SOFT.

Record Rect := mkRect { rect_x : Q; rect_y : Q; rect_w : Q; rect_h : Q }.

Record TerrainPiece := mkTerrainPiece {
  piece_id : string;
  piece_type : TerrainType;
  rects : list Rect;
}.

Definition pointInRect (p : Vec2) (r : Rect) : bool :=
  Qle_bool (rect_x r) (vx p) && Qle_bool (vx p) (rect_x r + rect_w r)
  && Qle_bool (rect_y r) (vy p) && Qle_bool (vy p) (rect_y r + rect_h r).

(** The closure [clip] of [segmentEnterT]; it updates the captured [t0], [t1]
    and answers [true] ([Some] of the updated pair) or [false] ([None]). *)
Definition clip (p q : Q) (t : Q * Q) : option (Q * Q) :=
  let '(t0, t1) := t in
  if Qltb (Qabs p) (1 # 1000000000) then
    if Qltb q 0 then None else Some (t0, t1)
  else
    let r := (q / p)%Q in
    if Qltb p 0 then
      if Qltb t1 r then None
      else Some (if Qltb t0 r then r else t0, t1)
    else
      if Qltb r t0 then None
      else Some (t0, if Qltb r t1 then r else t1).

Definition segmentEnterT (a b : Vec2) (r : Rect) : option Q :=
  let dx := (vx b - vx a)%Q in
  let dy := (vy b - vy a)%Q in
  let xMin := rect_x r in
  let xMax := (rect_x r + rect_w r)%Q in
  let yMin := rect_y r in
  let yMax := (rect_y r + rect_h r)%Q in
  match clip (- dx) (vx a - xMin) (0%Q, 1%Q) with
  | None => None
  | Some t =>
    match clip dx (xMax - vx a) t with
    | None => None
    | Some t =>
      match clip (- dy) (vy a - yMin) t with
      | None => None
      | Some t =>
        match clip dy (yMax - vy a) t with
        | None => None
        | Some (t0, _) =>
            if Qle_bool 0 t0 && Qle_bool t0 1 then Some t0 else None
        end
      end
    end
  end.

Definition segmentIntersectsRects (a b : Vec2) (rs : list Rect) : bool :=
  existsb (fun r => match segmentEnterT a b r with Some _ => true | None => false end) rs.

Record LosEffects := mkLosEffects {
  blocked : bool;
  obscured : bool;
  crossesAnyCover : bool;
}.

(** The [for (const t of terrain)] loop of [computeLosEffects], with the two
    mutable locals as accumulators. *)
Fixpoint losLoop (a b : Vec2) (terrain : list TerrainPiece)
    (obscured0 crossesAnyCover0 : bool) : LosEffects :=
  match terrain with
  | [] => {| blocked := false; obscured := obscured0; crossesAnyCover := crossesAnyCover0 |}
  | t :: rest =>
      if negb (segmentIntersectsRects a b (rects t)) then
        losLoop a b rest obscured0 crossesAnyCover0
      else
        match piece_type t with
        | HARD => {| blocked := true; obscured := false; crossesAnyCover := true |}
        | SOFT => losLoop a b rest true true
        end
  end.

Definition computeLosEffects (a b : Vec2) (terrain : list TerrainPiece) : LosEffects :=
  losLoop a b terrain false false.

(* ===================================================================== *)
(** * execute-turn.ts: grid pathfinding *)
(* ===================================================================== *)

(** [Math.round]: the nearest whole number, halves towards plus infinity. *)
Definition jsRound (v : Q) : Z := Qfloor (v + (1 # 2)).

Definition inRectHalfOpen (x y : Z) (r : Rect) : bool :=
  Qle_bool (rect_x r) (inject_Z x) && Qltb (inject_Z x) (rect_x r + rect_w r)
  && Qle_bool (rect_y r) (inject_Z y) && Qltb (inject_Z y) (rect_y r + rect_h r).

Definition isBlocked (terrain : list TerrainPiece) (boardSize : Z) (c : Z * Z) : bool :=
  let '(x, y) := c in
  if (x <? 0) || (y <? 0) || (x >? boardSize) || (y >? boardSize) then true
  else existsb (fun t => existsb (inRectHalfOpen x y) (rects t)) terrain.

Definition dirs : list (Z * Z) := [(1, 0); (-1, 0); (0, 1); (0, -1)].

(** The reconstruction loop: follow [prev] from [back], pushing each
    predecessor, until [prev] has no entry or the start is pushed. [None]
    means the step budget of the model ran out. *)
Fixpoint walkBack (fuel : nat) (prev : gmap (Z * Z) (Z * Z)) (s back : Z * Z)
    : option (list (Z * Z)) :=
  match fuel with
  | O => None
  | S fuel' =>
      match prev !! back with
      | None => Some []
      | Some p =>
          if decide (p = s) then Some [p]
          else cons p <$> walkBack fuel' prev s p
      end
  end.

Definition reconstruct (prev : gmap (Z * Z) (Z * Z)) (s g : Z * Z) : option (list (Z * Z)) :=
  (fun out => rev (g :: out)) <$> walkBack (S (size prev)) prev s g.

(** What one pass over [dirs] for a dequeued cell ends in: the function
    returns, or the loop goes on with the updated queue, [prev] and [seen]. *)
Inductive Expanded :=
| Returned (path : option (list (Z * Z)))
| Continue (q : list (Z * Z)) (prev : gmap (Z * Z) (Z * Z)) (seen : gset (Z * Z)).

Section Search.
Variable blockedAt : Z * Z -> bool.
Variables s g : Z * Z.

Fixpoint expand (cur : Z * Z) (ds : list (Z * Z))
    (q : list (Z * Z)) (prev : gmap (Z * Z) (Z * Z)) (seen : gset (Z * Z)) : Expanded :=
  match ds with
  | [] => Continue q prev seen
  | d :: ds' =>
      let n := (cur.1 + d.1, cur.2 + d.2) in
      if decide (n ∈ seen) then expand cur ds' q prev seen
      else if blockedAt n then expand cur ds' q prev seen
      else
        let prev' := <[n := cur]> prev in
        if decide (n = g) then Returned (reconstruct prev' s g)
        else expand cur ds' (q ++ [n]) prev' ({[n]} ∪ seen)
  end.

(** The [while (q.length)] loop. The outer [option] is [None] only when the
    step budget of the model ran out. *)
Fixpoint bfs (fuel : nat) (q : list (Z * Z)) (prev : gmap (Z * Z) (Z * Z))
    (seen : gset (Z * Z)) : option (option (list (Z * Z))) :=
  match q with
  | [] => Some None
  | cur :: q' =>
      match fuel with
      | O => None
      | S fuel' =>
          match expand cur dirs q' prev seen with
          | Returned (Some path) => Some (Some path)
          | Returned None => None
          | Continue q2 prev2 seen2 => bfs fuel' q2 prev2 seen2
          end
      end
  end.
End Search.

(** One step per lattice node of the board is enough for the search. *)
Definition searchBudget (boardSize : Z) : nat :=
  Z.to_nat ((boardSize + 1) * (boardSize + 1)).

Definition findPathManhattan_run (start goal : Vec2) (terrain : list TerrainPiece)
    (boardSize : Z) : option (option (list (Z * Z))) :=
  let s := (jsRound (vx start), jsRound (vy start)) in
  let g := (jsRound (vx goal), jsRound (vy goal)) in
  if isBlocked terrain boardSize s then Some None
  else if isBlocked terrain boardSize g then Some None
  else if decide (s = g) then Some (Some [s])
  else bfs (isBlocked terrain boardSize) s g (searchBudget boardSize) [s] ∅ {[s]}.

(** [findPathManhattan]: [None] is the [null] result. *)
Definition findPathManhattan (start goal : Vec2) (terrain : list TerrainPiece)
    (boardSize : Z) : option (list (Z * Z)) :=
  match findPathManhattan_run start goal terrain boardSize with
  | Some r => r
  | None => None
  end.

(* ===================================================================== *)
(** * core-weapons.ts *)
(* ===================================================================== *)

Inductive DiceExpr := D3 | D6.

Inductive DamageProfile :=
| flat (value : Z)
| dice (d : DiceExpr).

Inductive WeaponAbility := INDIRECT.

Record WeaponProfile := mkWeaponProfile {
  wp_name : string;
  rangeInches : Z;
  ap : Z;
  damage : DamageProfile;
  scatter : bool;
  abilities : list WeaponAbility;
}.

(* ===================================================================== *)
(** * The mutable world of a turn, and the monad that threads it *)
(* ===================================================================== *)

Inductive PlayerId := P1 | P2.

#[global] Instance PlayerId_eq_dec : EqDecision PlayerId.
Proof. solve_decision. Defined.

Definition enemyOf (p : PlayerId) : PlayerId :=
  match p with P1 => P2 | P2 => P1 end.

(** [Record<PlayerId, KnightState>]. *)
Record Knights := mkKnights { knightP1 : KnightState; knightP2 : KnightState }.

Definition getKnight (p : PlayerId) (ks : Knights) : KnightState :=
  match p with P1 => knightP1 ks | P2 => knightP2 ks end.

Definition setKnight (p : PlayerId) (k : KnightState) (ks : Knights) : Knights :=
  match p with
  | P1 => {| knightP1 := k; knightP2 := knightP2 ks |}
  | P2 => {| knightP1 := knightP1 ks; knightP2 := k |}
  end.

(** The Knight objects, the values [Math.random] is going to return (each in
    [0, 1)) and how many of them were consumed. *)
Record World := mkWorld {
  knights : Knights;
  randoms : nat -> Q;
  cursor : nat;
}.

(** A computation reads and writes the world; [None] is a thrown
    [TypeError]. *)
Definition M (A : Type) : Type := World -> option (A * World).

Definition ret {A} (a : A) : M A := fun w => Some (a, w).

Definition bind {A B} (m : M A) (f : A -> M B) : M B :=
  fun w => match m w with
           | Some (a, w') => f a w'
           | None => None
           end.

Definition throw {A} : M A := fun _ => None.

#[global] Instance M_ret : MRet M := @ret.
#[global] Instance M_bind : MBind M := fun A B f m => bind m f.

Definition readKnight (p : PlayerId) : M KnightState :=
  fun w => Some (getKnight p (knights w), w).

Definition modifyKnight (p : PlayerId) (f : KnightState -> KnightState) : M unit :=
  fun w => Some (tt, {| knights := setKnight p (f (getKnight p (knights w))) (knights w);
                        randoms := randoms w;
                        cursor := cursor w |}).

(** dice-and-aim.ts: [Math.floor(Math.random() * 6) + 1]. *)
Definition rollD6 : M Z :=
  fun w => Some (Qfloor (randoms w (cursor w) * 6) + 1,
                 {| knights := knights w; randoms := randoms w; cursor := S (cursor w) |}).

(** [override ?? rollD6()]. *)
Definition orRoll (override : option Z) : M Z :=
  match override with
  | Some v => ret v
  | None => rollD6
  end.

(* ===================================================================== *)
(** * resolve-attack.ts *)
(* ===================================================================== *)

Inductive AttackType := SNAP | STANDARD | AIMED.

Record DiceOverrides := mkDiceOverrides {
  o_red : option Z;
  o_blue : option Z;
  o_ionSave : option Z;
  o_save : option Z;
  o_damageD6 : option Z;
  o_damageD3 : option Z;
}.

Definition noOverrides : DiceOverrides :=
  {| o_red := None; o_blue := None; o_ionSave := None; o_save := None;
     o_damageD6 := None; o_damageD3 := None |}.

Inductive DirH := H_LEFT | H_RIGHT | H_HIT.
Inductive DirV := V_UP | V_DOWN | V_HIT.

Record ScatterLog := mkScatterLog {
  s_red : Z;
  s_redRaw : option Z;
  s_blue : Z;
  s_horizSymbol : string;
  s_vertSymbol : string;
  s_horizShift : Z;
  s_vertShift : Z;
}.

Record IonSaveLog := mkIonSaveLog {
  i_attempted : bool;
  i_die : Z;
  i_needed : Z;
  i_success : bool;
}.

Record ArmourSaveLog := mkArmourSaveLog {
  a_roll : Z;
  a_die : Z;
  a_needed : Z;
  a_mods_ap : Z;
  a_mods_cover : bool;
}.

Inductive SavedBy := ION | ARMOUR.

Inductive AttackOutcome :=
| MISS (targetCellId : string) (finalCellId : option string) (reason : string)
       (arc : FacingArc) (scatterLog : option ScatterLog)
| SAVED (targetCellId finalCellId cellId : string) (arc : FacingArc)
        (savedBy : SavedBy) (ionSave : option IonSaveLog)
        (armourSave : option ArmourSaveLog) (scatterLog : option ScatterLog)
| HIT (targetCellId finalCellId cellId : string) (arc : FacingArc)
      (ionSave : option IonSaveLog) (armourSave : ArmourSaveLog)
      (dmg : Z) (destroyed : bool) (scatterLog : option ScatterLog).

Definition verticalShift (attackType : AttackType) (roll : Z) : DirV * Z :=
  match attackType with
  | AIMED =>
      if roll =? 1 then (V_UP, 1)
      else if roll =? 6 then (V_DOWN, 1)
      else (V_HIT, 0)
  | STANDARD =>
      if roll =? 1 then (V_UP, 2)
      else if roll =? 2 then (V_UP, 1)
      else if roll =? 5 then (V_DOWN, 1)
      else if roll =? 6 then (V_DOWN, 2)
      else (V_HIT, 0)
  | SNAP =>
      if roll =? 1 then (V_UP, 3)
      else if roll =? 2 then (V_UP, 2)
      else if roll =? 3 then (V_UP, 1)
      else if roll =? 4 then (V_DOWN, 1)
      else if roll =? 5 then (V_DOWN, 2)
      else (V_DOWN, 3)
  end.

Definition horizontalShift (attackType : AttackType) (roll : Z) : DirH * Z :=
  match attackType with
  | AIMED =>
      if roll =? 1 then (H_LEFT, 1)
      else if roll =? 6 then (H_RIGHT, 1)
      else (H_HIT, 0)
  | STANDARD =>
      if roll =? 1 then (H_LEFT, 2)
      else if roll =? 2 then (H_LEFT, 1)
      else if roll =? 5 then (H_RIGHT, 1)
      else if roll =? 6 then (H_RIGHT, 2)
      else (H_HIT, 0)
  | SNAP =>
      if roll =? 1 then (H_LEFT, 3)
      else if roll =? 2 then (H_LEFT, 2)
      else if roll =? 3 then (H_LEFT, 1)
      else if roll =? 4 then (H_RIGHT, 1)
      else if roll =? 5 then (H_RIGHT, 2)
      else (H_RIGHT, 3)
  end.

(** [s.repeat(n)]. *)
Definition repeatString (s : string) (n : Z) : string :=
  String.concat EmptyString (repeat s (Z.to_nat n)).

Definition horizSymbol (dir : DirH) (shift : Z) : string :=
  match dir with
  | H_HIT => "[+]"
  | H_LEFT => if shift =? 0 then "[+]" else ("[" ++ repeatString "←" shift ++ "]")%string
  | H_RIGHT => if shift =? 0 then "[+]" else ("[" ++ repeatString "→" shift ++ "]")%string
  end.

Definition vertSymbol (dir : DirV) (shift : Z) : string :=
  match dir with
  | V_HIT => "[+]"
  | V_UP => if shift =? 0 then "[+]" else ("[" ++ repeatString "↑" shift ++ "]")%string
  | V_DOWN => if shift =? 0 then "[+]" else ("[" ++ repeatString "↓" shift ++ "]")%string
  end.

(** The argument object of [resolveAttackMutating]. [defenderArmourSaveBonus]
    is the property that every call in execute-turn.ts puts into the object;
    the parameter type of [resolveAttackMutating] does not declare it.
    [attacker] and [defender] are references to Knight objects. *)
Record AttackArgs := mkAttackArgs {
  attacker : PlayerId;
  defender : PlayerId;
  attackerPos : Vec2;
  defenderPos : Vec2;
  defenderFacingDeg : Q;
  defenderIonShieldArc : option FacingArc;
  defenderArmourSaveBonus : Z;
  weapon : WeaponProfile;
  attackType : AttackType;
  targetCellId : string;
  targetObscured : bool;
  gameGrid : Grid;
  diceOverrides : option DiceOverrides;
}.

Section ResolveAttack.
Variable atan2Deg : Q -> Q -> Q.

(** The scatter block: the final cell (or [null]) and the scatter log. *)
Definition scatterStep (defenderKnight : KnightState) (attackType : AttackType)
    (horizMod : Z) (startCell : GridCell) (dice : DiceOverrides)
    : M (option GridCell * option ScatterLog) :=
  redRaw ← orRoll (o_red dice);
  let red := Z.max 1 (Z.min 6 (redRaw + horizMod)) in
  blue ← orRoll (o_blue dice);
  let hs := horizontalShift attackType red in
  let vs := verticalShift attackType blue in
  let log :=
    {| s_red := red;
       s_redRaw := if decide (red = redRaw) then None else Some redRaw;
       s_blue := blue;
       s_horizSymbol := horizSymbol hs.1 hs.2;
       s_vertSymbol := vertSymbol vs.1 vs.2;
       s_horizShift := hs.2;
       s_vertShift := vs.2 |} in
  let dx := match hs.1 with H_LEFT => - hs.2 | H_RIGHT => hs.2 | H_HIT => 0 end in
  let dy := match vs.1 with V_UP => - vs.2 | V_DOWN => vs.2 | V_HIT => 0 end in
  let nx := cell_x startCell + dx in
  let ny := cell_y startCell + dy in
  let g := grid defenderKnight in
  if (nx <? 0) || (ny <? 0) || (nx >=? width g) || (ny >=? height g) then
    ret (None, Some log)
  else
    ret (snd <$> findCell (atCoord nx ny) (cells g), Some log).

(** The damage of a failed save, before the arc bonus. *)
Definition rollWeaponDamage (w : WeaponProfile) (dice : DiceOverrides) : M Z :=
  match damage w with
  | flat v => ret v
  | dice D6 => orRoll (o_damageD6 dice)
  | dice D3 =>
      match o_damageD3 dice with
      | Some v => ret v
      | None =>
          r ← orRoll (o_damageD6 dice);
          (* Math.ceil(r / 2) *)
          ret ((r + 1) / 2)
      end
  end.

Definition resolveAttackMutating (args : AttackArgs) : M AttackOutcome :=
  let dice := default noOverrides (diceOverrides args) in
  let arc := incomingArc atan2Deg (defenderPos args) (defenderFacingDeg args) (attackerPos args) in
  let shieldArc := default FRONT (defenderIonShieldArc args) in
  let horizMod := match arc with LEFT => -1 | RIGHT => 1 | _ => 0 end in
  let damageBonus := match arc with LEFT | RIGHT | REAR => 1 | FRONT => 0 end in
  let apBonus := match arc with REAR => -1 | _ => 0 end in
  defenderKnight ← readKnight (defender args);
  match findCell (hasId (targetCellId args)) (cells (grid defenderKnight)) with
  | None =>
      ret (MISS (targetCellId args) None "Target cell not found on defender grid." arc None)
  | Some (_, startCell) =>
      '(finalCell, scatterLog) ←
        (if scatter (weapon args)
         then scatterStep defenderKnight (attackType args) horizMod startCell dice
         else ret (Some startCell, None));
      match finalCell with
      | None =>
          ret (MISS (targetCellId args) None "Scatter moved shot off-grid." arc scatterLog)
      | Some finalCell =>
          match findCell (hasId (cell_id finalCell)) (cells (grid defenderKnight)) with
          | None => throw
          | Some (live, liveCell) =>
              if armorPoints liveCell <=? 0 then
                ret (MISS (targetCellId args) (Some (cell_id liveCell))
                       "Final location has no Armour Points remaining." arc scatterLog)
              else
                let ionApplies := scatter (weapon args) && bool_decide (arc = shieldArc) in
                ionSave ←
                  (if ionApplies then
                     ionDie ← orRoll (o_ionSave dice);
                     ret (Some {| i_attempted := true; i_die := ionDie; i_needed := 4;
                                  i_success := (ionDie >=? 4) |})
                   else ret None);
                if match ionSave with Some l => i_success l | None => false end then
                  ret (SAVED (targetCellId args) (cell_id liveCell) (cell_id liveCell) arc
                         ION ionSave None scatterLog)
                else
                  saveDie ← orRoll (o_save dice);
                  let coverBonus := if targetObscured args then 1 else 0 in
                  let effectiveAp := ap (weapon args) + apBonus in
                  let saveRoll := saveDie + effectiveAp + coverBonus in
                  let saveNeeded := 5 in
                  let armourSave :=
                    {| a_roll := saveRoll; a_die := saveDie; a_needed := saveNeeded;
                       a_mods_ap := effectiveAp;
                       a_mods_cover := (coverBonus =? 1) |} in
                  if saveRoll >=? saveNeeded then
                    ret (SAVED (targetCellId args) (cell_id liveCell) (cell_id liveCell) arc
                           ARMOUR ionSave (Some armourSave) scatterLog)
                  else
                    rolled ← rollWeaponDamage (weapon args) dice;
                    let dmg := Z.max 0 (rolled + damageBonus) in
                    _ ← modifyKnight (defender args)
                           (fun k => applyDamageToCell k live dmg);
                    defenderAfter ← readKnight (defender args);
                    let destroyed := isKnightDestroyed defenderAfter in
                    ret (HIT (targetCellId args) (cell_id liveCell) (cell_id liveCell) arc
                           ionSave armourSave dmg destroyed scatterLog)
          end
      end
  end.
End ResolveAttack.

(* ===================================================================== *)
(** * execute-turn.ts: the ion-shield step and the attack calls *)
(* ===================================================================== *)

(** [rotateArmourBonus], the per-turn record [{ P1: 0, P2: 0 }]. *)
Definition ArmourBonus := PlayerId -> Z.

Definition noArmourBonus : ArmourBonus := fun _ => 0.

Definition setArmourBonus (p : PlayerId) (v : Z) (b : ArmourBonus) : ArmourBonus :=
  fun q => if decide (q = p) then v else b q.

(** The [ROTATE_ION_SHIELDS] step over the active players: the players that
    rotated, and the updated bonus record. *)
Fixpoint rotateIonShieldsStep (activePlayers : list PlayerId) (snapshotKnights : Knights)
    (rotateArmourBonus : ArmourBonus) : list PlayerId * ArmourBonus :=
  match activePlayers with
  | [] => ([], rotateArmourBonus)
  | p :: rest =>
      if negb (canRotateIonShields (getKnight p snapshotKnights)) then
        rotateIonShieldsStep rest snapshotKnights rotateArmourBonus
      else
        let '(rotated, b) :=
          rotateIonShieldsStep rest snapshotKnights (setArmourBonus p 1 rotateArmourBonus) in
        (p :: rotated, b)
  end.

(** The argument object that the apply pass of a ranged-attack step builds
    for player [p] firing [profile]; the effective attack type, the target
    cell id and the obscured flag are the values the step computed before the
    call. No call passes [defenderIonShieldArc]. *)
Definition rangedAttackArgs (positions : PlayerId -> Vec2) (facings : PlayerId -> Q)
    (rotateArmourBonus : ArmourBonus) (gameGrid0 : Grid) (p : PlayerId)
    (profile : WeaponProfile) (effectiveAttackType : AttackType)
    (targetCellId0 : string) (losObscured : bool) (atkDice : option DiceOverrides)
    : AttackArgs :=
  let enemy := enemyOf p in
  {| attacker := p;
     defender := enemy;
     attackerPos := positions p;
     defenderPos := positions enemy;
     defenderFacingDeg := facings enemy;
     defenderIonShieldArc := None;
     defenderArmourSaveBonus := rotateArmourBonus enemy;
     weapon := profile;
     attackType := effectiveAttackType;
     targetCellId := targetCellId0;
     targetObscured := losObscured;
     gameGrid := gameGrid0;
     diceOverrides := atkDice |}.

(* ===================================================================== *)
(** * Notions used to state the properties *)
(* ===================================================================== *)

(** ** Damage model *)

Definition armorInRange (k : KnightState) : Prop :=
  Forall (fun c => 0 <= armorPoints c <= maxArmorPoints c) (cells (grid k)).

(** What may happen to one cell object: its identity, position, group and
    maximum stay, and a set critical flag stays set. *)
Definition cellEvolves (c c' : GridCell) : Prop :=
  cell_id c' = cell_id c /\ cell_x c' = cell_x c /\ cell_y c' = cell_y c /\
  group c' = group c /\ maxArmorPoints c' = maxArmorPoints c /\
  (criticallyDamaged c = true -> criticallyDamaged c' = true).

Definition gridEvolves (k k' : KnightState) : Prop :=
  width (grid k') = width (grid k) /\ height (grid k') = height (grid k) /\
  Forall2 cellEvolves (cells (grid k)) (cells (grid k')).

(** The operations of the damage model, as steps on a Knight. *)
Inductive damageOp : KnightState -> KnightState -> Prop :=
| op_applyDamage k cell dmg :
    0 <= dmg -> damageOp k (applyDamageToCell k cell dmg)
| op_markCritical k cellId :
    damageOp k (markCellCriticallyDamaged k cellId)
| op_criticalEffect k g :
    damageOp k (applyCoreCriticalEffect k g)
| op_armDisables k :
    damageOp k (updateArmDisablesIfNeeded k).

(** [i] is the reference that looking up the id of [c] in the grid yields. *)
Definition cellRef (k : KnightState) (i : nat) (c : GridCell) : Prop :=
  findCell (hasId (cell_id c)) (cells (grid k)) = Some (i, c).

(** The side effect on the Knight of a critical in group [g]. *)
Definition groupEffect (k : KnightState) (g : LocationGroup) : KnightState :=
  let k' := applyCoreCriticalEffect k g in
  if decide (g = G3) then updateArmDisablesIfNeeded k' else k'.

(** A cell at zero armour with its critical flag set. *)
Definition knockedOut (c : GridCell) : GridCell :=
  set_criticallyDamaged true (set_armorPoints 0 c).

Fixpoint countCritical (cs : list GridCell) : nat :=
  match cs with
  | [] => 0
  | c :: rest => ((if criticallyDamaged c then 1 else 0) + countCritical rest)%nat
  end.

Definition mountedOn (m : WeaponMount) (k : KnightState) : list MountedWeapon :=
  List.filter (fun w => bool_decide (mount w = m)) (weapons k).

Definition allDisabled (ws : list MountedWeapon) : Prop :=
  Forall (fun w => disabled w = true) ws.

Definition allEnabled (ws : list MountedWeapon) : Prop :=
  Forall (fun w => disabled w = false) ws.

(** ** Pathfinding *)

Definition adjacent4 (a b : Z * Z) : Prop :=
  exists d, d ∈ dirs /\ b = (a.1 + d.1, a.2 + d.2).

(** [route free a path b]: [path] is a sequence of free cells from [a] to [b],
    both included, each cell one N/E/S/W step from the one before. *)
Inductive route (blockedAt : Z * Z -> bool) (a : Z * Z) : list (Z * Z) -> Z * Z -> Prop :=
| route_start :
    blockedAt a = false -> route blockedAt a [a] a
| route_step path b c :
    route blockedAt a path b -> adjacent4 b c -> blockedAt c = false ->
    route blockedAt a (path ++ [c]) c.

(** Consecutive cells of a path are one step apart. *)
Fixpoint stepwise (path : list (Z * Z)) : Prop :=
  match path with
  | a :: (b :: _) as rest => adjacent4 a b /\ stepwise rest
  | _ => True
  end.

(** ** Facing arcs *)



(** A whole number of degrees. *)
Definition wholeDeg (q : Q) : Prop := exists z : Z, (q == inject_Z z)%Q.




(** ** Attack resolution *)

Definition isHit (o : AttackOutcome) : bool :=
  match o with HIT _ _ _ _ _ _ _ _ _ => true | _ => false end.

Definition ionSaveOf (o : AttackOutcome) : option IonSaveLog :=
  match o with
  | MISS _ _ _ _ _ => None
  | SAVED _ _ _ _ _ i _ _ => i
  | HIT _ _ _ _ i _ _ _ _ => i
  end.

Definition armourSaveOf (o : AttackOutcome) : option ArmourSaveLog :=
  match o with
  | MISS _ _ _ _ _ => None
  | SAVED _ _ _ _ _ _ a _ => a
  | HIT _ _ _ _ _ a _ _ _ => Some a
  end.

(** ** Sample data *)

Definition sampleTemplate : GridTemplate :=
  {| t_width := 5; t_height := 3;
     t_cells := [ mkGridTemplateCell 0 0 G3 2; mkGridTemplateCell 1 0 G3 1;
                  mkGridTemplateCell 2 0 G1 2; mkGridTemplateCell 3 0 G3 2;
                  mkGridTemplateCell 4 0 G3 2; mkGridTemplateCell 1 1 G5 3;
                  mkGridTemplateCell 2 1 G4 2; mkGridTemplateCell 3 1 G6 3;
                  mkGridTemplateCell 1 2 G8 2; mkGridTemplateCell 2 2 G7 2;
                  mkGridTemplateCell 3 2 G2 2 ] |}.

Definition sampleKnight : KnightState :=
  {| k_name := "Sample";
     grid := instantiateGrid sampleTemplate;
     maxActionPoints := 4;
     movementPenalty := 0;
     canRotateIonShields := true;
     weapons := [ mkMountedWeapon "Pod" CARAPACE false;
                  mkMountedWeapon "Stubber" TORSO false;
                  mkMountedWeapon "Cannon" ARM_LEFT false;
                  mkMountedWeapon "Flamer" ARM_LEFT false;
                  mkMountedWeapon "Sword" ARM_RIGHT false ] |}.

Definition sampleWorld : World :=
  {| knights := mkKnights sampleKnight sampleKnight;
     randoms := fun _ => 0%Q;
     cursor := 0 |}.

Definition sampleGun : WeaponProfile :=
  {| wp_name := "Gun"; rangeInches := 36; ap := 0; damage := flat 2;
     scatter := true; abilities := [] |}.

(** ** Further notions for the proofs *)

Definition armCells (side : Grid -> GridCell -> bool) (g : Grid) : list GridCell :=
  List.filter (side g) (List.filter isGroup3 (cells g)).

Definition gridWith (cs : list GridCell) (g : Grid) : Grid :=
  {| width := width g; height := height g; cells := cs |}.


Definition crosses (a b : Vec2) (t : TerrainPiece) : bool :=
  segmentIntersectsRects a b (rects t).

Definition isHard (t : TerrainPiece) : bool :=
  match piece_type t with HARD => true | SOFT => false end.


(** [trail prev s k l]: following [prev] from [k] visits the cells [l] and
    ends at the start [s]. *)
Inductive trail (prev : gmap (Z * Z) (Z * Z)) (s : Z * Z) : Z * Z -> list (Z * Z) -> Prop :=
| trail_last k :
    prev !! k = Some s -> trail prev s k [s]
| trail_more k p l :
    prev !! k = Some p -> p <> s -> trail prev s p l -> trail prev s k (p :: l).

(** The loop invariant of the search. *)
Record searchInv (blockedAt : Z * Z -> bool) (s : Z * Z)
    (q : list (Z * Z)) (prev : gmap (Z * Z) (Z * Z)) (seen : gset (Z * Z)) : Prop := {
  inv_seen : forall c, c ∈ seen <-> c = s \/ is_Some (prev !! c);
  inv_free : forall c, c ∈ seen -> blockedAt c = false;
  inv_queue : forall c, c ∈ q -> c ∈ seen;
  inv_trail : forall k p, prev !! k = Some p ->
    exists l, trail prev s k l /\ (length l <= size prev)%nat /\
              route blockedAt s (rev (k :: l)) k;
}.


Definition insideHalfOpen (x y : Z) (r : Rect) : Prop :=
  (rect_x r <= inject_Z x /\ inject_Z x < rect_x r + rect_w r /\
   rect_y r <= inject_Z y /\ inject_Z y < rect_y r + rect_h r)%Q.

Definition offBoard (boardSize x y : Z) : Prop :=
  x < 0 \/ y < 0 \/ x > boardSize \/ y > boardSize.


Definition boardNodes (boardSize : Z) : list (Z * Z) :=
  list_prod (seqZ 0 (boardSize + 1)) (seqZ 0 (boardSize + 1)).


(** The world after a computation that only rolled dice. *)
Definition onlyRolled (w w' : World) : Prop :=
  knights w' = knights w /\ randoms w' = randoms w /\ (cursor w <= cursor w')%nat.


(** A weakest-precondition reading of the monad: the computation returns, and
    its result and final world satisfy [Q]. *)
Definition wp {A} (m : M A) (w : World) (Q : A -> World -> Prop) : Prop :=
  exists a w', m w = Some (a, w') /\ Q a w'.


Definition finalCellIdOf (o : AttackOutcome) : option string :=
  match o with
  | MISS _ f _ _ _ => f
  | SAVED _ f _ _ _ _ _ _ => Some f
  | HIT _ f _ _ _ _ _ _ _ => Some f
  end.

Definition damageOf (o : AttackOutcome) : Z :=
  match o with
  | HIT _ _ _ _ _ _ d _ _ => d
  | _ => 0
  end.

(** What one resolution does to the world. *)
Definition attackEffect (args : AttackArgs) (w : World) (o : AttackOutcome) (w' : World) : Prop :=
  randoms w' = randoms w /\
  (isHit o = false -> knights w' = knights w) /\
  (isHit o = true ->
     exists live liveCell id,
       finalCellIdOf o = Some id /\
       findCell (hasId id) (cells (grid (getKnight (defender args) (knights w))))
         = Some (live, liveCell) /\
       0 <= damageOf o /\
       knights w'
       = setKnight (defender args)
           (applyDamageToCell (getKnight (defender args) (knights w)) live (damageOf o))
           (knights w)).


Definition scenarioDice (red blue ion save : Z) : DiceOverrides :=
  {| o_red := Some red; o_blue := Some blue; o_ionSave := Some ion; o_save := Some save;
     o_damageD6 := None; o_damageD3 := None |}.

Definition samplePositions (p : PlayerId) : Vec2 :=
  match p with P1 => mkVec2 10 0 | P2 => mkVec2 0 0 end.

Definition sampleFacings (p : PlayerId) : Q :=
  match p with P1 => 180%Q | P2 => 0%Q end.

Definition sampleArgs (bonus : ArmourBonus) (at0 : AttackType) (target : string)
    (d : DiceOverrides) : AttackArgs :=
  rangedAttackArgs samplePositions sampleFacings bonus (instantiateGrid sampleTemplate)
    P1 sampleGun at0 target false (Some d).


Definition scatterLogOf (o : AttackOutcome) : option ScatterLog :=
  match o with
  | MISS _ _ _ _ s => s
  | SAVED _ _ _ _ _ _ _ s => s
  | HIT _ _ _ _ _ _ _ _ s => s
  end.


(** The argument object carries the bonus, the resolution does not depend on
    it. *)
Definition withArmourSaveBonus (b : Z) (args : AttackArgs) : AttackArgs :=
  {| attacker := attacker args; defender := defender args;
     attackerPos := attackerPos args; defenderPos := defenderPos args;
     defenderFacingDeg := defenderFacingDeg args;
     defenderIonShieldArc := defenderIonShieldArc args;
     defenderArmourSaveBonus := b;
     weapon := weapon args; attackType := attackType args;
     targetCellId := targetCellId args; targetObscured := targetObscured args;
     gameGrid := gameGrid args; diceOverrides := diceOverrides args |}.


Definition sampleWithCriticals (n : nat) : KnightState :=
  set_cells (map (set_criticallyDamaged true) (take n (cells (grid sampleKnight)))
             ++ drop n (cells (grid sampleKnight))) sampleKnight.

(* ===================================================================== *)
(** * Damage model: lemmas *)
(* ===================================================================== *)

Section FindCell.
Implicit Types (p : GridCell -> bool) (l : list GridCell).

Lemma findCell_Some p l i c :
  findCell p l = Some (i, c) ->
  l !! i = Some c /\ p c = true /\
  forall j c', (j < i)%nat -> l !! j = Some c' -> p c' = false.
Proof.
  revert i. induction l as [|a l IH]; intros i H; simpl in H; [discriminate|].
  destruct (p a) eqn:Ha.
  - inversion H; subst. repeat split; auto. intros j c' Hj. lia.
  - destruct (findCell p l) as [[i' c0]|] eqn:Hf; [|discriminate].
    inversion H; subst. destruct (IH i' eq_refl) as (H1 & H2 & H3).
    repeat split; auto. intros [|j] c' Hj Hl; simpl in Hl.
    + congruence.
    + apply (H3 j); [lia|exact Hl].
Qed.

Lemma findCell_None p l :
  findCell p l = None -> forall c, c ∈ l -> p c = false.
Proof.
  induction l as [|a l IH]; intros H c Hc; simpl in H.
  - inversion Hc.
  - destruct (p a) eqn:Ha; [discriminate|].
    destruct (findCell p l) as [[i' c0]|] eqn:Hf; [discriminate|].
    inversion Hc; subst; auto.
Qed.

Lemma findCell_first p l i c :
  l !! i = Some c -> p c = true ->
  (forall j c', (j < i)%nat -> l !! j = Some c' -> p c' = false) ->
  findCell p l = Some (i, c).
Proof.
  revert i. induction l as [|a l IH]; intros [|i] Hl Hp Hbefore; simpl in *; try discriminate.
  - inversion Hl; subst. now rewrite Hp.
  - rewrite (Hbefore O a ltac:(lia) eq_refl).
    rewrite (IH i Hl Hp); [reflexivity|].
    intros j c' Hj Hc'. apply (Hbefore (S j)); [lia|exact Hc'].
Qed.

(** A cell that is in the list is found by its id: the lookup never fails. *)
Lemma findCell_hasId_member l c :
  c ∈ l -> exists i c', findCell (hasId (cell_id c)) l = Some (i, c').
Proof.
  induction l as [|a l IH]; intros Hc; [inversion Hc|]. simpl.
  destruct (hasId (cell_id c) a) eqn:Ha; [eauto|].
  inversion Hc; subst.
  - unfold hasId in Ha. rewrite String.eqb_refl in Ha. discriminate.
  - destruct (IH H1) as (i & c' & ->). eauto.
Qed.
End FindCell.

Lemma hasId_true id c : hasId id c = true <-> cell_id c = id.
Proof. unfold hasId. apply String.eqb_eq. Qed.

Lemma hasId_false id c : hasId id c = false <-> cell_id c <> id.
Proof. unfold hasId. apply String.eqb_neq. Qed.

(** With unique ids, every cell is the one its id names. *)
Lemma cellRef_of_NoDup k i c :
  NoDup (map cell_id (cells (grid k))) ->
  cells (grid k) !! i = Some c -> cellRef k i c.
Proof.
  intros Hnd Hi. unfold cellRef. apply findCell_first; auto.
  - now apply hasId_true.
  - intros j c' Hj Hc'. apply hasId_false. intros Heq.
    assert (Hmi : map cell_id (cells (grid k)) !! i = Some (cell_id c))
      by (rewrite list_lookup_fmap, Hi; reflexivity).
    assert (Hmj : map cell_id (cells (grid k)) !! j = Some (cell_id c))
      by (rewrite list_lookup_fmap, Hc'; simpl; now rewrite Heq).
    pose proof (NoDup_lookup _ _ _ _ Hnd Hmi Hmj). lia.
Qed.

(** Overwriting a cell by one with the same id does not move what the id
    names. *)
Lemma findCell_hasId_insert id l i c c' :
  findCell (hasId id) l = Some (i, c) -> cell_id c' = cell_id c ->
  findCell (hasId id) (<[i := c']> l) = Some (i, c').
Proof.
  intros Hf Hid. destruct (findCell_Some _ _ _ _ Hf) as (Hl & Hp & Hbefore).
  apply findCell_first.
  - apply list_lookup_insert_eq. now apply lookup_lt_Some in Hl.
  - apply hasId_true. apply hasId_true in Hp. congruence.
  - intros j c0 Hj Hc0. rewrite list_lookup_insert_ne in Hc0 by lia. eauto.
Qed.

Lemma applyCoreCriticalEffect_grid k g : grid (applyCoreCriticalEffect k g) = grid k.
Proof. destruct g; reflexivity. Qed.

Lemma updateArmDisablesIfNeeded_grid k : grid (updateArmDisablesIfNeeded k) = grid k.
Proof.
  unfold updateArmDisablesIfNeeded.
  destruct (bothCrit (leftArmCells (grid k))), (bothCrit (rightArmCells _)); reflexivity.
Qed.

Lemma groupEffect_grid k g : grid (groupEffect k g) = grid k.
Proof.
  unfold groupEffect. destruct (decide (g = G3)).
  - now rewrite updateArmDisablesIfNeeded_grid, applyCoreCriticalEffect_grid.
  - apply applyCoreCriticalEffect_grid.
Qed.

Lemma cellEvolves_refl c : cellEvolves c c.
Proof. unfold cellEvolves. tauto. Qed.

Lemma cellEvolves_trans c1 c2 c3 :
  cellEvolves c1 c2 -> cellEvolves c2 c3 -> cellEvolves c1 c3.
Proof.
  unfold cellEvolves. intros (?&?&?&?&?&?) (?&?&?&?&?&?).
  repeat split; try congruence. auto.
Qed.

Lemma gridEvolves_refl k : gridEvolves k k.
Proof.
  repeat split. apply Forall_Forall2_diag, Forall_forall. intros; apply cellEvolves_refl.
Qed.

Lemma gridEvolves_trans k1 k2 k3 :
  gridEvolves k1 k2 -> gridEvolves k2 k3 -> gridEvolves k1 k3.
Proof.
  intros (?&?&H12) (?&?&H23). repeat split; try congruence.
  eapply Forall2_trans; [| exact H12 | exact H23].
  intros ? ? ?; apply cellEvolves_trans.
Qed.

Lemma gridEvolves_same_grid k k' : grid k' = grid k -> gridEvolves k k'.
Proof.
  intros H. unfold gridEvolves. rewrite H. apply (gridEvolves_refl k).
Qed.

Lemma Forall2_insert_diag {A} (R : A -> A -> Prop) (l : list A) i c c' :
  (forall a, R a a) -> l !! i = Some c -> R c c' -> Forall2 R l (<[i := c']> l).
Proof.
  intros Hrefl. revert i. induction l as [|a l IH]; intros [|i] Hl HR; simpl in *; try discriminate.
  - inversion Hl; subst. constructor; auto.
    apply Forall_Forall2_diag, Forall_forall; auto.
  - constructor; auto.
Qed.

Lemma writeCell_gridEvolves k i c c' :
  cells (grid k) !! i = Some c -> cellEvolves c c' -> gridEvolves k (writeCell i c' k).
Proof.
  intros Hl Hc. repeat split. simpl.
  eapply Forall2_insert_diag; eauto using cellEvolves_refl.
Qed.

Lemma writeCell_armorInRange k i c :
  armorInRange k -> 0 <= armorPoints c <= maxArmorPoints c ->
  armorInRange (writeCell i c k).
Proof.
  unfold armorInRange. simpl. intros H Hc. now apply Forall_insert.
Qed.

(** What marking does to a cell that its id names and that is not critical
    yet. *)
Lemma markCellCriticallyDamaged_fresh k id i c :
  findCell (hasId id) (cells (grid k)) = Some (i, c) ->
  criticallyDamaged c = false ->
  markCellCriticallyDamaged k id
  = groupEffect (writeCell i (set_criticallyDamaged true c) k) (group c).
Proof.
  intros Hf Hc. unfold markCellCriticallyDamaged, groupEffect. rewrite Hf, Hc.
  reflexivity.
Qed.

Lemma markCellCriticallyDamaged_noop k id :
  (forall i c, findCell (hasId id) (cells (grid k)) = Some (i, c) ->
               criticallyDamaged c = true) ->
  markCellCriticallyDamaged k id = k.
Proof.
  intros H. unfold markCellCriticallyDamaged.
  destruct (findCell _ _) as [[i c]|] eqn:Hf; [|reflexivity].
  now rewrite (H i c eq_refl).
Qed.

Lemma markCellCriticallyDamaged_cases k id :
  markCellCriticallyDamaged k id = k \/
  exists i c, findCell (hasId id) (cells (grid k)) = Some (i, c) /\
              criticallyDamaged c = false /\
              markCellCriticallyDamaged k id
              = groupEffect (writeCell i (set_criticallyDamaged true c) k) (group c).
Proof.
  destruct (findCell (hasId id) (cells (grid k))) as [[i c]|] eqn:Hf.
  - destruct (criticallyDamaged c) eqn:Hc.
    + left. apply markCellCriticallyDamaged_noop.
      intros i' c' H'. rewrite Hf in H'. now inversion H'; subst.
    + right. exists i, c. repeat split; auto.
      now apply markCellCriticallyDamaged_fresh.
  - left. unfold markCellCriticallyDamaged. now rewrite Hf.
Qed.

Lemma markCellCriticallyDamaged_gridEvolves k id :
  gridEvolves k (markCellCriticallyDamaged k id).
Proof.
  destruct (markCellCriticallyDamaged_cases k id) as [->|(i & c & Hf & Hc & ->)].
  - apply gridEvolves_refl.
  - apply findCell_Some in Hf as (Hl & _ & _).
    eapply gridEvolves_trans.
    + apply (writeCell_gridEvolves k i c (set_criticallyDamaged true c) Hl).
      unfold cellEvolves; simpl; tauto.
    + apply gridEvolves_same_grid, groupEffect_grid.
Qed.

Lemma groupEffect_armorInRange k g : armorInRange k -> armorInRange (groupEffect k g).
Proof. unfold armorInRange. now rewrite groupEffect_grid. Qed.

Lemma markCellCriticallyDamaged_armorInRange k id :
  armorInRange k -> armorInRange (markCellCriticallyDamaged k id).
Proof.
  intros Hk.
  destruct (markCellCriticallyDamaged_cases k id) as [->|(i & c & Hf & Hc & ->)]; auto.
  apply groupEffect_armorInRange, writeCell_armorInRange; auto. simpl.
  apply findCell_Some in Hf as (Hl & _ & _).
  unfold armorInRange in Hk. rewrite Forall_forall in Hk. apply Hk.
  eapply list_elem_of_lookup_2; eauto.
Qed.

(** ** applyDamageToCell *)

Lemma applyDamageToCell_critical k i c dmg :
  cells (grid k) !! i = Some c -> criticallyDamaged c = true ->
  applyDamageToCell k i dmg = k.
Proof. intros Hl Hc. unfold applyDamageToCell. now rewrite Hl, Hc. Qed.

Lemma applyDamageToCell_survives k i c dmg :
  cells (grid k) !! i = Some c -> criticallyDamaged c = false ->
  0 < armorPoints c - dmg ->
  applyDamageToCell k i dmg = writeCell i (set_armorPoints (armorPoints c - dmg) c) k.
Proof.
  intros Hl Hc Hpos. unfold applyDamageToCell. rewrite Hl, Hc. simpl.
  rewrite Z.max_r by lia.
  destruct (Z.eqb_spec (armorPoints c - dmg) 0); [lia|reflexivity].
Qed.

Lemma applyDamageToCell_knocksOut k i c dmg :
  cellRef k i c -> criticallyDamaged c = false ->
  armorPoints c - dmg <= 0 ->
  applyDamageToCell k i dmg = groupEffect (writeCell i (knockedOut c) k) (group c).
Proof.
  intros Href Hc Hle. destruct (findCell_Some _ _ _ _ Href) as (Hl & _ & _).
  unfold applyDamageToCell. rewrite Hl, Hc. simpl.
  rewrite Z.max_l by lia. simpl.
  set (c1 := set_armorPoints 0 c).
  rewrite (markCellCriticallyDamaged_fresh _ (cell_id c) i c1).
  - unfold writeCell at 1. simpl. rewrite list_insert_insert_eq.
    destruct k as [? [] ? ? ? ?]; reflexivity.
  - simpl. eapply findCell_hasId_insert; [exact Href|reflexivity].
  - exact Hc.
Qed.

Lemma groupEffect_cells_lookup k g i :
  cells (grid (groupEffect k g)) !! i = cells (grid k) !! i.
Proof. now rewrite groupEffect_grid. Qed.

Lemma applyDamageToCell_gridEvolves k i dmg :
  gridEvolves k (applyDamageToCell k i dmg).
Proof.
  unfold applyDamageToCell.
  destruct (cells (grid k) !! i) as [c|] eqn:Hl; [|apply gridEvolves_refl].
  destruct (criticallyDamaged c) eqn:Hc; [apply gridEvolves_refl|].
  set (c1 := set_armorPoints _ c).
  assert (H1 : gridEvolves k (writeCell i c1 k)).
  { apply (writeCell_gridEvolves k i c c1 Hl). unfold cellEvolves; simpl; tauto. }
  destruct (armorPoints c1 =? 0); [|exact H1].
  eapply gridEvolves_trans; [exact H1|apply markCellCriticallyDamaged_gridEvolves].
Qed.

Lemma applyDamageToCell_armorInRange k i dmg :
  0 <= dmg -> armorInRange k -> armorInRange (applyDamageToCell k i dmg).
Proof.
  intros Hd Hk. unfold applyDamageToCell.
  destruct (cells (grid k) !! i) as [c|] eqn:Hl; [|exact Hk].
  destruct (criticallyDamaged c) eqn:Hc; [exact Hk|].
  set (c1 := set_armorPoints _ c).
  assert (H1 : armorInRange (writeCell i c1 k)).
  { apply writeCell_armorInRange; auto. simpl.
    assert (Hc0 : 0 <= armorPoints c <= maxArmorPoints c).
    { unfold armorInRange in Hk. rewrite Forall_forall in Hk. apply Hk.
      eapply list_elem_of_lookup_2; eauto. }
    lia. }
  destruct (armorPoints c1 =? 0); [|exact H1].
  now apply markCellCriticallyDamaged_armorInRange.
Qed.

Lemma damageOp_gridEvolves k k' : damageOp k k' -> gridEvolves k k'.
Proof.
  destruct 1.
  - apply applyDamageToCell_gridEvolves.
  - apply markCellCriticallyDamaged_gridEvolves.
  - apply gridEvolves_same_grid, applyCoreCriticalEffect_grid.
  - apply gridEvolves_same_grid, updateArmDisablesIfNeeded_grid.
Qed.

Lemma damageOp_armorInRange k k' : damageOp k k' -> armorInRange k -> armorInRange k'.
Proof.
  destruct 1; intros Hk.
  - now apply applyDamageToCell_armorInRange.
  - now apply markCellCriticallyDamaged_armorInRange.
  - unfold armorInRange. now rewrite applyCoreCriticalEffect_grid.
  - unfold armorInRange. now rewrite updateArmDisablesIfNeeded_grid.
Qed.

(** ** Destroyed threshold *)

Lemma critCount_countCritical k : critCount k = countCritical (cells (grid k)).
Proof.
  unfold critCount. induction (cells (grid k)) as [|c l IH]; simpl; [reflexivity|].
  destruct (criticallyDamaged c); simpl; now rewrite IH.
Qed.

Lemma countCritical_flags l l' :
  map criticallyDamaged l' = map criticallyDamaged l -> countCritical l' = countCritical l.
Proof.
  revert l'. induction l as [|c l IH]; intros [|c' l'] H; simpl in *; try discriminate; auto.
  inversion H as [[Hc Hl]]. rewrite Hc, (IH _ Hl). reflexivity.
Qed.

(** ** Arm weapons *)

Lemma disableMount_other m m' ws :
  m <> m' ->
  List.filter (fun w => bool_decide (mount w = m)) (disableMount m' ws)
  = List.filter (fun w => bool_decide (mount w = m)) ws.
Proof.
  intros Hne. induction ws as [|w ws IH]; simpl; [reflexivity|].
  destruct (decide (mount w = m')) as [Hm|Hm]; simpl; rewrite IH.
  - rewrite !bool_decide_eq_false_2 by congruence. reflexivity.
  - reflexivity.
Qed.

Lemma disableMount_same m ws :
  Forall (fun w => disabled w = true)
    (List.filter (fun w => bool_decide (mount w = m)) (disableMount m ws)).
Proof.
  induction ws as [|w ws IH]; simpl; [constructor|].
  destruct (decide (mount w = m)) as [Hm|Hm]; simpl.
  - rewrite bool_decide_eq_true_2 by exact Hm. constructor; auto.
  - rewrite bool_decide_eq_false_2 by exact Hm. exact IH.
Qed.

Lemma updateArmDisablesIfNeeded_left_kept k :
  bothCrit (leftArmCells (grid k)) = false ->
  mountedOn ARM_LEFT (updateArmDisablesIfNeeded k) = mountedOn ARM_LEFT k.
Proof.
  intros H. unfold updateArmDisablesIfNeeded, mountedOn. rewrite H.
  destruct (bothCrit (rightArmCells (grid k))); simpl; [|reflexivity].
  now apply disableMount_other.
Qed.

Lemma updateArmDisablesIfNeeded_left_off k :
  bothCrit (leftArmCells (grid k)) = true ->
  allDisabled (mountedOn ARM_LEFT (updateArmDisablesIfNeeded k)).
Proof.
  intros H. unfold updateArmDisablesIfNeeded, mountedOn, allDisabled. rewrite H. simpl.
  destruct (bothCrit (rightArmCells (grid k))); simpl.
  - rewrite disableMount_other by discriminate. apply disableMount_same.
  - apply disableMount_same.
Qed.

Lemma updateArmDisablesIfNeeded_right_kept k :
  bothCrit (rightArmCells (grid k)) = false ->
  mountedOn ARM_RIGHT (updateArmDisablesIfNeeded k) = mountedOn ARM_RIGHT k.
Proof.
  intros H. unfold updateArmDisablesIfNeeded, mountedOn.
  destruct (bothCrit (leftArmCells (grid k))); simpl; rewrite H; simpl; [|reflexivity].
  now apply disableMount_other.
Qed.

Lemma updateArmDisablesIfNeeded_right_off k :
  bothCrit (rightArmCells (grid k)) = true ->
  allDisabled (mountedOn ARM_RIGHT (updateArmDisablesIfNeeded k)).
Proof.
  intros H. unfold updateArmDisablesIfNeeded, mountedOn, allDisabled.
  destruct (bothCrit (leftArmCells (grid k))); simpl; rewrite H; simpl;
    apply disableMount_same.
Qed.

Lemma groupEffect_G3 k : groupEffect k G3 = updateArmDisablesIfNeeded k.
Proof. reflexivity. Qed.

Section ArmCascade.
Variable side : Grid -> GridCell -> bool.
Hypothesis side_stable : forall g g' c c',
  width g' = width g -> cell_x c' = cell_x c -> side g' c' = side g c.

Lemma elem_of_armCells g c :
  c ∈ armCells side g <-> c ∈ cells g /\ group c = G3 /\ side g c = true.
Proof.
  unfold armCells. rewrite !list_elem_of_In, !filter_In, <- list_elem_of_In.
  unfold isGroup3. rewrite bool_decide_eq_true. tauto.
Qed.

Lemma armCells_length g g' :
  width g' = width g -> Forall2 cellEvolves (cells g) (cells g') ->
  length (armCells side g') = length (armCells side g).
Proof.
  intros Hw H. unfold armCells.
  assert (Hs : forall c c', cellEvolves c c' -> side g' c' = side g c).
  { intros c c' (_ & Hx & _). now apply side_stable. }
  induction H as [|c c' l l' Hc _ IH]; simpl; [reflexivity|].
  assert (Hg : isGroup3 c' = isGroup3 c).
  { unfold isGroup3. destruct Hc as (_ & _ & _ & -> & _). reflexivity. }
  rewrite Hg. destruct (isGroup3 c); simpl; [|exact IH].
  rewrite (Hs _ _ Hc). destruct (side g c); simpl; now rewrite IH.
Qed.

Variables (g : Grid) (c1 c2 : GridCell) (i1 i2 : nat).
Hypothesis Hnd : NoDup (map cell_id (cells g)).
Hypothesis Harm : armCells side g ≡ₚ [c1; c2].
Hypothesis Hi1 : cells g !! i1 = Some c1.
Hypothesis Hi2 : cells g !! i2 = Some c2.
Hypothesis Hne : i1 <> i2.

Lemma arm_member_1 : group c1 = G3 /\ side g c1 = true.
Proof.
  assert (H : c1 ∈ armCells side g) by (rewrite Harm; set_solver).
  apply elem_of_armCells in H. tauto.
Qed.

Lemma arm_member_2 : group c2 = G3 /\ side g c2 = true.
Proof.
  assert (H : c2 ∈ armCells side g) by (rewrite Harm; set_solver).
  apply elem_of_armCells in H. tauto.
Qed.

Lemma bothCrit_after_first :
  criticallyDamaged c2 = false ->
  bothCrit (armCells side
              (gridWith (<[i1 := set_criticallyDamaged true c1]> (cells g)) g)) = false.
Proof.
  intros Hc2. unfold bothCrit. apply andb_false_iff. right.
  destruct (forallb _ _) eqn:Hall; [|reflexivity].
  rewrite forallb_forall in Hall. rewrite <- Hc2. symmetry. apply Hall.
  apply list_elem_of_In, elem_of_armCells. destruct arm_member_2 as (Hg & Hs).
  repeat split; auto.
  - simpl. apply (list_elem_of_lookup_2 _ i2). now rewrite list_lookup_insert_ne.
  - rewrite <- Hs. now apply side_stable.
Qed.

Lemma bothCrit_after_second :
  bothCrit (armCells side
              (gridWith (<[i2 := set_criticallyDamaged true c2]>
                           (<[i1 := set_criticallyDamaged true c1]> (cells g))) g)) = true.
Proof.
  set (c1' := set_criticallyDamaged true c1).
  set (c2' := set_criticallyDamaged true c2).
  unfold bothCrit. apply andb_true_iff. split.
  - rewrite (armCells_length g); [now rewrite Harm|reflexivity|]. simpl.
    eapply Forall2_trans;
      [intros ? ? ?; apply cellEvolves_trans
      | apply (Forall2_insert_diag cellEvolves (cells g) i1 c1 c1' cellEvolves_refl Hi1)
      | apply (Forall2_insert_diag cellEvolves _ i2 c2 c2' cellEvolves_refl) ].
    + unfold cellEvolves; simpl; tauto.
    + now rewrite list_lookup_insert_ne.
    + unfold cellEvolves; simpl; tauto.
  - apply forallb_forall. intros c Hc.
    apply list_elem_of_In, elem_of_armCells in Hc as (Hin & Hg & Hs). simpl in Hin.
    apply list_elem_of_lookup_1 in Hin as (n & Hn).
    destruct (decide (n = i2)) as [->|Hn2].
    { rewrite list_lookup_insert_eq in Hn.
      - now inversion Hn.
      - rewrite length_insert. now apply lookup_lt_Some in Hi2. }
    rewrite list_lookup_insert_ne in Hn by auto.
    destruct (decide (n = i1)) as [->|Hn1].
    { rewrite list_lookup_insert_eq in Hn.
      - now inversion Hn.
      - now apply lookup_lt_Some in Hi1. }
    rewrite list_lookup_insert_ne in Hn by auto.
    exfalso.
    assert (Hmem : c ∈ armCells side g).
    { apply elem_of_armCells. repeat split; auto.
      - eapply list_elem_of_lookup_2; eauto.
      - rewrite <- Hs. now apply side_stable. }
    rewrite Harm in Hmem.
    assert (Hnd' : NoDup (cells g)) by (eapply NoDup_fmap_1; exact Hnd).
    apply elem_of_cons in Hmem as [->|Hmem].
    + apply Hn1. eapply NoDup_lookup; eauto.
    + apply list_elem_of_singleton in Hmem as ->.
      apply Hn2. eapply NoDup_lookup; eauto.
Qed.
End ArmCascade.

Lemma leftOfMid_stable g g' c c' :
  width g' = width g -> cell_x c' = cell_x c -> leftOfMid g' c' = leftOfMid g c.
Proof. intros Hw Hx. unfold leftOfMid, midline. now rewrite Hw, Hx. Qed.

Lemma rightOfMid_stable g g' c c' :
  width g' = width g -> cell_x c' = cell_x c -> rightOfMid g' c' = rightOfMid g c.
Proof. intros Hw Hx. unfold rightOfMid, midline. now rewrite Hw, Hx. Qed.

Lemma map_cell_id_insert l i c c' :
  l !! i = Some c -> cell_id c' = cell_id c ->
  map cell_id (<[i := c']> l) = map cell_id l.
Proof.
  intros Hl Hid. change (cell_id <$> <[i:=c']> l = cell_id <$> l).
  rewrite list_fmap_insert. apply list_insert_id.
  rewrite list_lookup_fmap, Hl. simpl. now rewrite Hid.
Qed.

(** The two marks of a two-cell arm, reduced to the recomputation of the arm
    condition on the grid after each mark. *)
Lemma cascade_recomputes (side : Grid -> GridCell -> bool) k c1 c2 :
  (forall g g' c c', width g' = width g -> cell_x c' = cell_x c -> side g' c' = side g c) ->
  NoDup (map cell_id (cells (grid k))) ->
  armCells side (grid k) ≡ₚ [c1; c2] ->
  c1 <> c2 -> criticallyDamaged c1 = false -> criticallyDamaged c2 = false ->
  exists ka kb,
    markCellCriticallyDamaged k (cell_id c1) = updateArmDisablesIfNeeded ka /\
    weapons ka = weapons k /\
    bothCrit (armCells side (grid ka)) = false /\
    markCellCriticallyDamaged (markCellCriticallyDamaged k (cell_id c1)) (cell_id c2)
    = updateArmDisablesIfNeeded kb /\
    bothCrit (armCells side (grid kb)) = true.
Proof.
  intros Hstable Hnd Harm Hne Hc1 Hc2.
  assert (Hm1 : c1 ∈ armCells side (grid k)) by (rewrite Harm; set_solver).
  assert (Hm2 : c2 ∈ armCells side (grid k)) by (rewrite Harm; set_solver).
  apply elem_of_armCells in Hm1 as (Hin1 & Hg1 & _).
  apply elem_of_armCells in Hm2 as (Hin2 & Hg2 & _).
  apply list_elem_of_lookup_1 in Hin1 as (i1 & Hi1).
  apply list_elem_of_lookup_1 in Hin2 as (i2 & Hi2).
  assert (Hi : i1 <> i2) by (intros ->; congruence).
  set (c1' := set_criticallyDamaged true c1).
  set (c2' := set_criticallyDamaged true c2).
  set (ka := writeCell i1 c1' k).
  assert (Hk1 : markCellCriticallyDamaged k (cell_id c1) = updateArmDisablesIfNeeded ka).
  { rewrite (markCellCriticallyDamaged_fresh k (cell_id c1) i1 c1); auto.
    - now rewrite Hg1.
    - now apply cellRef_of_NoDup. }
  set (k1 := markCellCriticallyDamaged k (cell_id c1)) in *.
  assert (Hgrid1 : grid k1 = gridWith (<[i1 := c1']> (cells (grid k))) (grid k)).
  { rewrite Hk1, updateArmDisablesIfNeeded_grid. reflexivity. }
  set (kb := writeCell i2 c2' k1).
  assert (Hk2 : markCellCriticallyDamaged k1 (cell_id c2) = updateArmDisablesIfNeeded kb).
  { rewrite (markCellCriticallyDamaged_fresh k1 (cell_id c2) i2 c2); auto.
    - now rewrite Hg2.
    - apply cellRef_of_NoDup.
      + rewrite Hgrid1. simpl. now rewrite (map_cell_id_insert _ _ c1).
      + rewrite Hgrid1. simpl. now rewrite list_lookup_insert_ne. }
  exists ka, kb. repeat split; auto.
  - apply (bothCrit_after_first side Hstable (grid k) c1 c2 i1 i2); auto.
  - assert (Hgb : grid kb
                  = gridWith (<[i2 := c2']> (<[i1 := c1']> (cells (grid k)))) (grid k)).
    { unfold kb, writeCell, set_cells. simpl. now rewrite Hgrid1. }
    rewrite Hgb.
    apply (bothCrit_after_second side Hstable (grid k) c1 c2 i1 i2); auto.
Qed.

(** C9. In a grid whose left-arm subset (group 3, column left of the midline)
    is exactly the two cells [c1] and [c2], in either order: marking the first
    critical leaves the left-arm weapons as they were, so enabled ones stay
    enabled; marking the second disables every left-arm weapon. The same holds
    for the right arm. The arm condition is recomputed at each group-3
    critical. *)
Theorem arm_disable_cascade k c1 c2 :
  NoDup (map cell_id (cells (grid k))) ->
  c1 <> c2 -> criticallyDamaged c1 = false -> criticallyDamaged c2 = false ->
  let k1 := markCellCriticallyDamaged k (cell_id c1) in
  let k2 := markCellCriticallyDamaged k1 (cell_id c2) in
  (leftArmCells (grid k) ≡ₚ [c1; c2] ->
     mountedOn ARM_LEFT k1 = mountedOn ARM_LEFT k /\
     allDisabled (mountedOn ARM_LEFT k2)) /\
  (rightArmCells (grid k) ≡ₚ [c1; c2] ->
     mountedOn ARM_RIGHT k1 = mountedOn ARM_RIGHT k /\
     allDisabled (mountedOn ARM_RIGHT k2)).
Proof.
  intros Hnd Hne Hc1 Hc2 k1 k2. split; intros Harm.
  - destruct (cascade_recomputes leftOfMid k c1 c2 leftOfMid_stable Hnd Harm Hne Hc1 Hc2)
      as (ka & kb & Hk1 & Hw & Hfirst & Hk2 & Hsecond).
    subst k1 k2. rewrite Hk2, Hk1. split.
    + rewrite updateArmDisablesIfNeeded_left_kept by exact Hfirst.
      unfold mountedOn. now rewrite Hw.
    + now apply updateArmDisablesIfNeeded_left_off.
  - destruct (cascade_recomputes rightOfMid k c1 c2 rightOfMid_stable Hnd Harm Hne Hc1 Hc2)
      as (ka & kb & Hk1 & Hw & Hfirst & Hk2 & Hsecond).
    subst k1 k2. rewrite Hk2, Hk1. split.
    + rewrite updateArmDisablesIfNeeded_right_kept by exact Hfirst.
      unfold mountedOn. now rewrite Hw.
    + now apply updateArmDisablesIfNeeded_right_off.
Qed.

Lemma arm_disable_cascade_witness :
  let c1 := mkGridCell "A1" 0 0 G3 2 2 false in
  let c2 := mkGridCell "A2" 1 0 G3 1 1 false in
  let k1 := markCellCriticallyDamaged sampleKnight "A1" in
  let k2 := markCellCriticallyDamaged k1 "A2" in
  allEnabled (mountedOn ARM_LEFT k1) /\ allDisabled (mountedOn ARM_LEFT k2).
Proof.
  intros c1 c2 k1 k2.
  assert (Hnd : NoDup (map cell_id (cells (grid sampleKnight)))).
  { apply (bool_decide_unpack _). vm_compute. exact I. }
  destruct (arm_disable_cascade sampleKnight c1 c2 Hnd ltac:(discriminate) eq_refl eq_refl)
    as [Hleft _].
  destruct (Hleft ltac:(reflexivity)) as [H1 H2].
  split; [|exact H2].
  change (allEnabled (mountedOn ARM_LEFT (markCellCriticallyDamaged sampleKnight (cell_id c1)))).
  rewrite H1. vm_compute. repeat constructor.
Defined.

(** C5. A Knight is destroyed exactly when at least 6 of its cells are
    critically damaged: 5 critical cells do not destroy it, 6 do, and nothing
    but the critical flags of the cells (not their groups, armour or place)
    enters the verdict. *)
Theorem destroyed_threshold k :
  (isKnightDestroyed k = true <-> (6 <= countCritical (cells (grid k)))%nat) /\
  (countCritical (cells (grid k)) = 5%nat -> isKnightDestroyed k = false) /\
  (countCritical (cells (grid k)) = 6%nat -> isKnightDestroyed k = true) /\
  (forall k', map criticallyDamaged (cells (grid k')) = map criticallyDamaged (cells (grid k)) ->
              isKnightDestroyed k' = isKnightDestroyed k).
Proof.
  unfold isKnightDestroyed. rewrite critCount_countCritical.
  repeat split.
  - intros H. now apply Nat.leb_le in H.
  - intros H. now apply Nat.leb_le.
  - intros ->. reflexivity.
  - intros ->. reflexivity.
  - intros k' H. now rewrite critCount_countCritical, (countCritical_flags _ _ H).
Qed.

Lemma destroyed_threshold_witness :
  isKnightDestroyed (sampleWithCriticals 5) = false /\
  isKnightDestroyed (sampleWithCriticals 6) = true.
Proof.
  split.
  - apply (destroyed_threshold (sampleWithCriticals 5)). reflexivity.
  - apply (destroyed_threshold (sampleWithCriticals 6)). reflexivity.
Defined.

(* ===================================================================== *)
(** * Geometry and line of sight *)
(* ===================================================================== *)

Lemma Qltb_true a b : Qltb a b = true <-> (a < b)%Q.
Proof.
  unfold Qltb. rewrite negb_true_iff. split.
  - intros H. apply Qnot_le_lt. intros Hle. apply Qle_bool_iff in Hle. congruence.
  - intros H. destruct (Qle_bool b a) eqn:E; [|reflexivity].
    apply Qle_bool_iff in E. exfalso. apply (Qlt_not_le _ _ H E).
Qed.


Lemma Qle_bool_false a b : Qle_bool a b = false <-> (b < a)%Q.
Proof.
  rewrite <- Qltb_true. unfold Qltb. now rewrite negb_true_iff.
Qed.

Lemma Qtrunc_nonneg q :
  (0 <= q)%Q -> (inject_Z (Qtrunc q) <= q /\ q < inject_Z (Qtrunc q) + 1)%Q.
Proof.
  intros H. unfold Qtrunc. apply Qle_bool_iff in H. rewrite H. split.
  - apply Qfloor_le.
  - pose proof (Qlt_floor q) as Hlt. rewrite inject_Z_plus in Hlt. exact Hlt.
Qed.

Lemma Qtrunc_neg q :
  (q < 0)%Q -> (inject_Z (Qtrunc q) - 1 < q /\ q <= inject_Z (Qtrunc q))%Q.
Proof.
  intros H. unfold Qtrunc. apply Qle_bool_false in H. rewrite H. split.
  - pose proof (Qceiling_lt q) as Hlt. unfold Z.sub in Hlt.
    rewrite inject_Z_plus in Hlt. exact Hlt.
  - apply Qle_ceiling.
Qed.

(** The remainder by 360: congruent to the dividend, and on the side of zero
    where the dividend is. *)
Lemma jsRem_360 a :
  (exists k : Z, jsRem a 360 == a - 360 * inject_Z k)%Q /\
  ((0 <= a)%Q -> (0 <= jsRem a 360 /\ jsRem a 360 < 360)%Q) /\
  ((a < 0)%Q -> (-360 < jsRem a 360 /\ jsRem a 360 <= 0)%Q).
Proof.
  unfold jsRem. set (t := inject_Z (Qtrunc (a / 360))).
  assert (Ha : (a == 360 * (a / 360))%Q) by (field).
  split; [exists (Qtrunc (a / 360)); reflexivity|]. split; intros H.
  - assert (H0 : (0 <= a / 360)%Q) by lra.
    destruct (Qtrunc_nonneg _ H0) as [H1 H2]. fold t in H1, H2. lra.
  - assert (H0 : (a / 360 < 0)%Q) by lra.
    destruct (Qtrunc_neg _ H0) as [H1 H2]. fold t in H1, H2. lra.
Qed.


(** ** Rounding to the nearest double *)


Lemma roundEven_ge x (N : Z) : (inject_Z N <= x)%Q -> N <= roundEven x.
Proof.
  intros H. assert (Hf : N <= Qfloor x).
  { rewrite <- (Qfloor_Z N). now apply Qfloor_resp_le. }
  unfold roundEven. destruct (x - inject_Z (Qfloor x) ?= 1 # 2)%Q; [destruct (Z.even _)|..]; lia.
Qed.

Lemma roundEven_le x (N : Z) : (x <= inject_Z N)%Q -> roundEven x <= N.
Proof.
  intros H. pose proof (Qfloor_le x) as H1.
  assert (Hf : Qfloor x <= N) by (rewrite Zle_Qle; lra).
  assert (Hs : (inject_Z (Qfloor x) < x)%Q -> Qfloor x + 1 <= N).
  { intros Hlt. assert (Qfloor x < N); [|lia]. rewrite Zlt_Qlt. lra. }
  unfold roundEven. destruct (x - inject_Z (Qfloor x) ?= 1 # 2)%Q eqn:E.
  - apply Qeq_alt in E. destruct (Z.even _); [lia|]. apply Hs. lra.
  - lia.
  - apply Qgt_alt in E. apply Hs. lra.
Qed.

Lemma pow2_pos k : (0 < 2 ^ k)%Q.
Proof. apply Qpower_0_lt. reflexivity. Qed.

Lemma pow2_le a b : a <= b -> (2 ^ a <= 2 ^ b)%Q.
Proof. intros H. apply Qpower_le_compat_l; [exact H|discriminate]. Qed.

Lemma pow2_add a b : (2 ^ (a + b) == 2 ^ a * 2 ^ b)%Q.
Proof. apply Qpower_plus. discriminate. Qed.

Lemma pow2_Z n : 0 <= n -> (inject_Z (2 ^ n) == 2 ^ n)%Q.
Proof. intros H. now rewrite Zpower_Qpower. Qed.

Lemma pow2_cancel k : (2 ^ k * 2 ^ (- k) == 1)%Q.
Proof. rewrite <- pow2_add. now replace (k + - k) with 0 by lia. Qed.

Lemma Qlog2_lower q : ~ (q == 0)%Q -> (2 ^ Qlog2 q <= Qabs q)%Q.
Proof.
  intros Hq. unfold Qlog2.
  set (g := Z.log2 (Z.abs (Qnum q)) - Z.log2 (Z.pos (Qden q))).
  destruct (Qle_bool (2 ^ g) (Qabs q)) eqn:E; [now apply Qle_bool_iff|].
  destruct q as [n d]. cbn [Qnum Qden] in g.
  assert (Hn : 0 < Z.abs n).
  { destruct n; [exfalso; apply Hq; reflexivity|lia|lia]. }
  pose proof (Z.log2_spec _ Hn) as [Hlo _].
  pose proof (Z.log2_spec (Z.pos d) ltac:(lia)) as [_ Hhi].
  pose proof (Z.log2_nonneg (Z.abs n)) as Hln.
  pose proof (Z.log2_nonneg (Z.pos d)) as Hld.
  change (Qabs (n # d)) with (Z.abs n # d). rewrite (Qmake_Qdiv (Z.abs n) d).
  apply Qle_shift_div_l; [reflexivity|].
  apply Qle_trans with (2 ^ (g - 1) * 2 ^ (Z.log2 (Z.pos d) + 1))%Q.
  - apply Qmult_le_l; [apply pow2_pos|].
    rewrite <- pow2_Z by lia. rewrite <- Zle_Qle.
    replace (Z.log2 (Z.pos d) + 1) with (Z.succ (Z.log2 (Z.pos d))) by lia. lia.
  - rewrite <- pow2_add.
    replace (g - 1 + (Z.log2 (Z.pos d) + 1)) with (Z.log2 (Z.abs n)) by (unfold g; lia).
    rewrite <- pow2_Z by lia. now rewrite <- Zle_Qle.
Qed.

Lemma Qlog2_lt q E : ~ (q == 0)%Q -> (Qabs q < 2 ^ E)%Q -> Qlog2 q < E.
Proof.
  intros Hq Hlt. destruct (Z.ltb_spec (Qlog2 q) E) as [|Hge]; [assumption|].
  exfalso. pose proof (Qlog2_lower q Hq) as Hlo. pose proof (pow2_le _ _ Hge). lra.
Qed.

Lemma ulpExp_le q E :
  ~ (q == 0)%Q -> (Qabs q < 2 ^ E)%Q -> -1021 <= E -> ulpExp q <= E - 53.
Proof.
  intros Hq Hlt HE. pose proof (Qlog2_lt q E Hq Hlt). unfold ulpExp. lia.
Qed.

Lemma fl_0 q : (q == 0)%Q -> fl q = 0%Q.
Proof. intros H. unfold fl. apply Qeq_bool_iff in H. now rewrite H. Qed.

Lemma fl_unfold q :
  ~ (q == 0)%Q -> (fl q == inject_Z (roundEven (q / 2 ^ ulpExp q)) * 2 ^ ulpExp q)%Q.
Proof.
  intros H. unfold fl. destruct (Qeq_bool q 0) eqn:E.
  - apply Qeq_bool_iff in E. contradiction.
  - cbv zeta. apply Qred_correct.
Qed.


(** Whole numbers below 2^53 are representable: rounding never crosses one. *)
Lemma fl_between q (a b : Z) :
  (Qabs q < 2 ^ 53)%Q -> (inject_Z a <= q)%Q -> (q <= inject_Z b)%Q ->
  (inject_Z a <= fl q /\ fl q <= inject_Z b)%Q.
Proof.
  intros Hlt Ha Hb. destruct (Qeq_dec q 0) as [Hz|Hnz].
  - rewrite (fl_0 q Hz). rewrite Hz in Ha, Hb. split; assumption.
  - rewrite (fl_unfold q Hnz).
    pose proof (ulpExp_le q 53 Hnz Hlt ltac:(lia)) as Hk.
    set (k := ulpExp q) in *. pose proof (pow2_pos k) as Hp.
    pose proof (pow2_pos (- k)) as Hp'. pose proof (pow2_cancel k) as Hc.
    assert (Hint : forall z : Z, (inject_Z (z * 2 ^ (- k)) * 2 ^ k == inject_Z z)%Q).
    { intros z. rewrite inject_Z_mult, pow2_Z by lia.
      rewrite <- Qmult_assoc, (Qmult_comm (2 ^ (- k))), Hc. ring. }
    assert (Hx : (q / 2 ^ k == q * 2 ^ (- k))%Q).
    { rewrite Qpower_opp. reflexivity. }
    split.
    + rewrite <- (Hint a). apply Qmult_le_compat_r; [|lra].
      rewrite <- Zle_Qle. apply roundEven_ge. rewrite Hx, inject_Z_mult, pow2_Z by lia.
      apply Qmult_le_compat_r; [exact Ha|lra].
    + rewrite <- (Hint b). apply Qmult_le_compat_r; [|lra].
      rewrite <- Zle_Qle. apply roundEven_le. rewrite Hx, inject_Z_mult, pow2_Z by lia.
      apply Qmult_le_compat_r; [exact Hb|lra].
Qed.

Lemma fl_nonneg q : (0 <= q)%Q -> (0 <= fl q)%Q.
Proof.
  intros H. destruct (Qeq_dec q 0) as [Hz|Hnz].
  - rewrite (fl_0 q Hz). apply Qle_refl.
  - rewrite (fl_unfold q Hnz). apply Qmult_le_0_compat; [|apply Qlt_le_weak, pow2_pos].
    change 0%Q with (inject_Z 0). rewrite <- Zle_Qle. apply roundEven_ge.
    apply Qle_shift_div_l; [apply pow2_pos|]. change (inject_Z 0) with 0%Q. lra.
Qed.

Lemma fl_whole (z : Z) : (Qabs (inject_Z z) < 2 ^ 53)%Q -> (fl (inject_Z z) == inject_Z z)%Q.
Proof.
  intros H. destruct (fl_between (inject_Z z) z z H); [apply Qle_refl..|].
  now apply Qle_antisym.
Qed.

Lemma Qlog2_upper q : ~ (q == 0)%Q -> (Qabs q < 2 ^ (Qlog2 q + 1))%Q.
Proof.
  intros Hq. unfold Qlog2.
  set (g := Z.log2 (Z.abs (Qnum q)) - Z.log2 (Z.pos (Qden q))).
  destruct (Qle_bool (2 ^ g) (Qabs q)) eqn:E.
  2:{ apply Qle_bool_false in E. now replace (g - 1 + 1) with g by lia. }
  clear E. destruct q as [n d]. cbn [Qnum Qden] in g.
  assert (Hn : 0 < Z.abs n).
  { destruct n; [exfalso; apply Hq; reflexivity|lia|lia]. }
  pose proof (Z.log2_spec _ Hn) as [_ Hhi].
  pose proof (Z.log2_spec (Z.pos d) ltac:(lia)) as [Hlo _].
  pose proof (Z.log2_nonneg (Z.abs n)) as Hln.
  pose proof (Z.log2_nonneg (Z.pos d)) as Hld.
  change (Qabs (n # d)) with (Z.abs n # d). rewrite (Qmake_Qdiv (Z.abs n) d).
  apply Qlt_shift_div_r; [reflexivity|].
  apply Qlt_le_trans with (2 ^ (g + 1) * 2 ^ Z.log2 (Z.pos d))%Q.
  - rewrite <- pow2_add.
    replace (g + 1 + Z.log2 (Z.pos d)) with (Z.succ (Z.log2 (Z.abs n))) by (unfold g; lia).
    rewrite <- pow2_Z by lia. now rewrite <- Zlt_Qlt.
  - apply Qmult_le_l; [apply pow2_pos|].
    rewrite <- pow2_Z by lia. now rewrite <- Zle_Qle.
Qed.

(** [fl] is a function of the rational, not of the fraction that denotes it. *)
Lemma Qlog2_Qeq q q' : (q == q')%Q -> ~ (q == 0)%Q -> Qlog2 q = Qlog2 q'.
Proof.
  intros Heq Hq.
  assert (Hq' : ~ (q' == 0)%Q) by (intros H; apply Hq; now rewrite Heq).
  pose proof (Qlog2_lower q Hq) as L1. pose proof (Qlog2_upper q Hq) as U1.
  pose proof (Qlog2_lower q' Hq') as L2. pose proof (Qlog2_upper q' Hq') as U2.
  pose proof (Qabs_wd _ _ Heq) as Ha.
  assert (Qlog2 q < Qlog2 q' + 1).
  { apply (Qpower_lt_compat_l_inv 2); [|reflexivity]. lra. }
  assert (Qlog2 q' < Qlog2 q + 1).
  { apply (Qpower_lt_compat_l_inv 2); [|reflexivity]. lra. }
  lia.
Qed.

Lemma roundEven_Qeq x x' : (x == x')%Q -> roundEven x = roundEven x'.
Proof.
  intros Heq. unfold roundEven.
  assert (Hf : Qfloor x' = Qfloor x) by (symmetry; now apply Qfloor_comp).
  rewrite Hf.
  assert (Hc : (x - inject_Z (Qfloor x) ?= 1 # 2)%Q = (x' - inject_Z (Qfloor x) ?= 1 # 2)%Q).
  { apply Qcompare_comp; [|reflexivity]. unfold Qminus. apply Qplus_comp; [exact Heq|reflexivity]. }
  now rewrite Hc.
Qed.

Lemma fl_Qeq q q' : (q == q')%Q -> (fl q == fl q')%Q.
Proof.
  intros Heq. destruct (Qeq_dec q 0) as [Hz|Hnz].
  - rewrite (fl_0 q Hz), (fl_0 q'); [reflexivity|]. now rewrite <- Heq.
  - assert (Hnz' : ~ (q' == 0)%Q) by (intros H; apply Hnz; now rewrite Heq).
    rewrite (fl_unfold q Hnz), (fl_unfold q' Hnz'). unfold ulpExp.
    rewrite <- (Qlog2_Qeq q q' Heq Hnz).
    set (k := Z.max (Qlog2 q - 52) (-1074)).
    assert (Hr : roundEven (q / 2 ^ k) = roundEven (q' / 2 ^ k)).
    { apply roundEven_Qeq. now rewrite Heq. }
    rewrite Hr. reflexivity.
Qed.




Lemma Qabs_lt_bounds q lo hi M :
  (lo <= q)%Q -> (q <= hi)%Q -> (- M < lo)%Q -> (hi < M)%Q -> (Qabs q < M)%Q.
Proof.
  intros H1 H2 H3 H4. apply Qabs_case; intros; lra.
Qed.

Lemma below_2_53 q : (Qabs q < 1024)%Q -> (Qabs q < 2 ^ 53)%Q.
Proof. intros H. eapply Qlt_trans; [exact H|reflexivity]. Qed.



Lemma wholeDeg_Z z : wholeDeg (inject_Z z).
Proof. exists z. reflexivity. Qed.




(** ** The normalisations, with their rounding errors *)



(** [normalizeDeltaDeg s] lies in (-180, 180] and is [s] modulo 360 plus the
    errors of its three rounded operations. *)
Lemma normalizeDeltaDeg_facts s :
  let q3 := (s + 180)%Q in
  let q4 := (jsRem (fl q3) 360 + 360)%Q in
  let q5 := (jsRem (fl q4) 360 - 180)%Q in
  (0 < q4 /\ q4 < 720)%Q /\ (-180 <= q5 /\ q5 < 180)%Q /\
  (-180 < normalizeDeltaDeg s /\ normalizeDeltaDeg s <= 180)%Q /\
  exists k : Z,
    (normalizeDeltaDeg s ==
       s + 360 * inject_Z k + (fl q3 - q3) + (fl q4 - q4) + (fl q5 - q5))%Q.
Proof.
  intros q3 q4 q5.
  destruct (jsRem_360 (fl q3)) as ((k3 & Hk3) & Hpos3 & Hneg3).
  assert (Hq4 : (0 < q4 /\ q4 < 720)%Q).
  { unfold q4. destruct (Qlt_le_dec (fl q3) 0) as [Hd|Hd];
      [apply Hneg3 in Hd|apply Hpos3 in Hd]; lra. }
  pose proof (fl_nonneg q4 ltac:(lra)) as Hfl4.
  destruct (jsRem_360 (fl q4)) as ((k4 & Hk4) & Hpos4 & _).
  specialize (Hpos4 Hfl4).
  assert (Hq5 : (-180 <= q5 /\ q5 < 180)%Q) by (unfold q5; lra).
  assert (Hd : (inject_Z (-180) <= fl q5 /\ fl q5 <= inject_Z 180)%Q).
  { apply fl_between.
    - apply below_2_53. apply (Qabs_lt_bounds q5 (-180) 180); lra.
    - change (inject_Z (-180)) with (-180)%Q. lra.
    - change (inject_Z 180) with 180%Q. lra. }
  change (inject_Z (-180)) with (-180)%Q in Hd. change (inject_Z 180) with 180%Q in Hd.
  assert (Hsum : (fl q5 == s + 360 * inject_Z (1 - k3 - k4)
                          + (fl q3 - q3) + (fl q4 - q4) + (fl q5 - q5))%Q).
  { unfold Z.sub. rewrite !inject_Z_plus, !inject_Z_opp. change (inject_Z 1) with 1%Q.
    assert (E5 : (q5 == fl q4 - 360 * inject_Z k4 - 180)%Q) by (unfold q5; lra).
    assert (E4 : (q4 == fl q3 - 360 * inject_Z k3 + 360)%Q) by (unfold q4; lra).
    assert (E3 : (q3 == s + 180)%Q) by reflexivity.
    lra. }
  split; [exact Hq4|]. split; [exact Hq5|].
  unfold normalizeDeltaDeg. fold q3. fold q4. fold q5. cbv zeta.
  destruct (Qeq_bool (fl q5) (-180)) eqn:E.
  - apply Qeq_bool_iff in E. split; [lra|].
    exists (1 - k3 - k4 + 1). rewrite (inject_Z_plus _ 1). change (inject_Z 1) with 1%Q. lra.
  - apply Qeq_bool_neq in E. split; [lra|]. exists (1 - k3 - k4). exact Hsum.
Qed.

Lemma normalizeDeltaDeg_range s :
  (-180 < normalizeDeltaDeg s /\ normalizeDeltaDeg s <= 180)%Q.
Proof. apply (normalizeDeltaDeg_facts s). Qed.







(** ** The delta that is classified *)








(** * Line of sight *)

Lemma losLoop_spec a b terrain o c :
  losLoop a b terrain o c =
  if existsb (fun t => isHard t && crosses a b t) terrain
  then {| blocked := true; obscured := false; crossesAnyCover := true |}
  else {| blocked := false;
          obscured := o || existsb (fun t => negb (isHard t) && crosses a b t) terrain;
          crossesAnyCover := c || existsb (crosses a b) terrain |}.
Proof.
  unfold crosses, isHard.
  revert o c. induction terrain as [|t rest IH]; intros o c; simpl.
  - rewrite !orb_false_r. reflexivity.
  - destruct (segmentIntersectsRects a b (rects t)) eqn:Hx; simpl.
    + destruct (piece_type t); simpl; [reflexivity|].
      rewrite IH. rewrite !orb_true_r. reflexivity.
    + rewrite IH, !andb_false_r. reflexivity.
Qed.

Lemma existsb_Permutation {A} (p : A -> bool) (l l' : list A) :
  l ≡ₚ l' -> existsb p l = existsb p l'.
Proof.
  intros H. induction H; simpl; try congruence.
  destruct (p x), (p y); reflexivity.
Qed.

(** C7. If the segment crosses a HARD piece, [computeLosEffects] answers
    blocked, not obscured, crossing cover, whatever SOFT pieces it also crosses
    and in whatever order the pieces are listed; [crossesAnyCover] is true
    exactly when the segment crosses some piece of either type. *)
Theorem los_hard_cover_wins (a b : Vec2) (terrain : list TerrainPiece) :
  ((exists t, t ∈ terrain /\ piece_type t = HARD /\ crosses a b t = true) ->
     computeLosEffects a b terrain
     = {| blocked := true; obscured := false; crossesAnyCover := true |}) /\
  (crossesAnyCover (computeLosEffects a b terrain) = true <->
     exists t, t ∈ terrain /\ crosses a b t = true) /\
  (forall terrain', terrain ≡ₚ terrain' ->
     computeLosEffects a b terrain' = computeLosEffects a b terrain).
Proof.
  unfold computeLosEffects. split; [|split; [split|]].
  - intros (t & Hin & Hty & Hx). rewrite losLoop_spec.
    replace (existsb _ terrain) with true; [reflexivity|].
    symmetry. apply existsb_exists. exists t. split; [now apply list_elem_of_In|].
    unfold isHard. now rewrite Hty, Hx.
  - rewrite losLoop_spec.
    destruct (existsb (fun t => isHard t && crosses a b t) terrain) eqn:Hh; simpl.
    + intros _. apply existsb_exists in Hh as (t & Hin & Ht).
      apply andb_true_iff in Ht as [_ Ht]. exists t. split; [now apply list_elem_of_In|auto].
    + intros H. apply existsb_exists in H as (t & Hin & Ht).
      exists t. split; [now apply list_elem_of_In|auto].
  - intros (t & Hin & Hx). rewrite losLoop_spec.
    destruct (existsb (fun t => isHard t && crosses a b t) terrain); simpl; [reflexivity|].
    apply existsb_exists. exists t. split; [now apply list_elem_of_In|auto].
  - intros terrain' Hp. rewrite !losLoop_spec.
    now rewrite !(existsb_Permutation _ _ _ Hp).
Qed.

Lemma los_hard_cover_wins_witness :
  let soft := mkTerrainPiece "S" SOFT [mkRect 1 (-1) 1 2] in
  let hard := mkTerrainPiece "H" HARD [mkRect 5 (-1) 1 2] in
  computeLosEffects (mkVec2 0 0) (mkVec2 10 0) [soft; hard]
  = {| blocked := true; obscured := false; crossesAnyCover := true |} /\
  computeLosEffects (mkVec2 0 0) (mkVec2 10 0) [hard; soft]
  = {| blocked := true; obscured := false; crossesAnyCover := true |}.
Proof.
  intros soft hard. split.
  - apply (proj1 (los_hard_cover_wins (mkVec2 0 0) (mkVec2 10 0) [soft; hard])).
    exists hard. split; [|split]; [|reflexivity|reflexivity].
    apply list_elem_of_In. simpl. auto.
  - apply (proj1 (los_hard_cover_wins (mkVec2 0 0) (mkVec2 10 0) [hard; soft])).
    exists hard. split; [|split]; [|reflexivity|reflexivity].
    apply list_elem_of_In. simpl. auto.
Defined.

(* ===================================================================== *)
(** * Grid pathfinding *)
(* ===================================================================== *)

(** * Routes *)

Lemma route_free blockedAt a path b :
  route blockedAt a path b -> Forall (fun c => blockedAt c = false) path.
Proof.
  induction 1.
  - now constructor.
  - apply Forall_app. split; auto.
Qed.

Lemma route_head blockedAt a path b :
  route blockedAt a path b -> head path = Some a.
Proof.
  induction 1; [reflexivity|]. destruct path; [discriminate|]. exact IHroute.
Qed.

Lemma route_last blockedAt a path b :
  route blockedAt a path b -> last path = Some b.
Proof.
  destruct 1; [reflexivity|]. apply last_snoc.
Qed.

Lemma stepwise_snoc path b c :
  stepwise path -> last path = Some b -> adjacent4 b c -> stepwise (path ++ [c]).
Proof.
  induction path as [|x [|y rest] IH]; intros Hs Hl Hadj.
  - discriminate.
  - simpl in Hl. inversion Hl; subst. simpl. auto.
  - destruct Hs as [Hxy Hs]. split; [exact Hxy|]. apply IH; auto.
Qed.

Lemma route_stepwise blockedAt a path b :
  route blockedAt a path b -> stepwise path.
Proof.
  induction 1; [exact I|].
  eapply stepwise_snoc; eauto using route_last.
Qed.

(** * The search *)

Lemma trail_weaken prev prev' s k l :
  prev ⊆ prev' -> trail prev s k l -> trail prev' s k l.
Proof.
  intros Hsub. induction 1.
  - apply trail_last. eapply lookup_weaken; eauto.
  - apply trail_more; auto. eapply lookup_weaken; eauto.
Qed.

Lemma walkBack_trail prev s k l fuel :
  trail prev s k l -> (length l <= fuel)%nat -> walkBack fuel prev s k = Some l.
Proof.
  intros Ht. revert fuel. induction Ht as [k Hk|k p l Hk Hp Ht IH]; intros [|fuel] Hlen;
    simpl in *; try lia.
  - rewrite Hk. now rewrite decide_True.
  - rewrite Hk. rewrite decide_False by exact Hp.
    rewrite IH by lia. reflexivity.
Qed.

Lemma reconstruct_trail prev s g l :
  trail prev s g l -> (length l <= size prev)%nat ->
  reconstruct prev s g = Some (rev (g :: l)).
Proof.
  intros Ht Hlen. unfold reconstruct. rewrite (walkBack_trail _ _ _ l); auto.
Qed.

Section SearchFacts.
Variable blockedAt : Z * Z -> bool.
Variables s g : Z * Z.

(** Recording [cur] as the predecessor of a fresh free neighbour keeps the
    invariant, whatever the queue becomes. *)
Lemma searchInv_visit q q' prev seen cur n :
  searchInv blockedAt s q prev seen ->
  cur ∈ seen -> n ∉ seen -> blockedAt n = false -> adjacent4 cur n ->
  (forall c, c ∈ q' -> c ∈ q \/ c = n) ->
  searchInv blockedAt s q' (<[n := cur]> prev) ({[n]} ∪ seen).
Proof.
  intros [Hseen Hfree Hq Htrail] Hcur Hn Hnfree Hadj Hq'.
  assert (Hnone : prev !! n = None).
  { destruct (prev !! n) eqn:E; [|reflexivity].
    exfalso. apply Hn, Hseen. right. eauto. }
  assert (Hsub : prev ⊆ <[n := cur]> prev) by now apply insert_subseteq.
  assert (Hsize : size (<[n := cur]> prev) = S (size prev))
    by now apply map_size_insert_None.
  split.
  - intros c. rewrite elem_of_union, elem_of_singleton, Hseen.
    destruct (decide (c = n)) as [->|Hne].
    + rewrite lookup_insert_eq. split; [eauto|auto].
    + rewrite lookup_insert_ne by auto. tauto.
  - intros c [->%elem_of_singleton|Hc]%elem_of_union; auto.
  - intros c Hc. destruct (Hq' c Hc) as [Hc'| ->].
    + apply elem_of_union_r, Hq, Hc'.
    + apply elem_of_union_l, elem_of_singleton. reflexivity.
  - intros k p Hk. rewrite Hsize.
    destruct (decide (k = n)) as [->|Hne].
    + rewrite lookup_insert_eq in Hk. inversion Hk; subst p.
      destruct (decide (cur = s)) as [->|Hcs].
      * exists [s]. split; [|split]; simpl; [|lia|].
        -- apply trail_last. apply lookup_insert_eq.
        -- apply (route_step _ _ [s] s); auto.
           apply route_start. now apply Hfree.
      * apply Hseen in Hcur as [?|[p' Hp']]; [contradiction|].
        destruct (Htrail _ _ Hp') as (l & Hl & Hlen & Hroute).
        exists (cur :: l). split; [|split]; simpl; [|lia|].
        -- apply trail_more; [apply lookup_insert_eq|exact Hcs|].
           eapply trail_weaken; eauto.
        -- apply (route_step _ _ _ cur); auto.
    + rewrite lookup_insert_ne in Hk by auto.
      destruct (Htrail _ _ Hk) as (l & Hl & Hlen & Hroute).
      exists l. split; [|split]; [|lia|exact Hroute].
      eapply trail_weaken; eauto.
Qed.

Lemma expand_spec cur ds q prev seen :
  (forall d, d ∈ ds -> d ∈ dirs) ->
  cur ∈ seen ->
  searchInv blockedAt s q prev seen ->
  match expand blockedAt s g cur ds q prev seen with
  | Returned r => exists path, r = Some path /\ route blockedAt s path g
  | Continue q2 prev2 seen2 =>
      searchInv blockedAt s q2 prev2 seen2 /\
      (size seen2 + length q = size seen + length q2)%nat
  end.
Proof.
  revert q prev seen. induction ds as [|d ds IH]; intros q prev seen Hds Hcur Hinv; simpl.
  - split; [exact Hinv|lia].
  - assert (Hds' : forall d', d' ∈ ds -> d' ∈ dirs) by (intros; apply Hds; set_solver).
    set (n := (cur.1 + d.1, cur.2 + d.2)).
    destruct (decide (n ∈ seen)) as [Hn|Hn]; [now apply IH|].
    destruct (blockedAt n) eqn:Hb; [now apply IH|].
    assert (Hadj : adjacent4 cur n) by (exists d; split; [apply Hds; set_solver|reflexivity]).
    assert (Hinv' : searchInv blockedAt s (q ++ [n]) (<[n := cur]> prev) ({[n]} ∪ seen)).
    { eapply searchInv_visit; eauto. intros c Hc. set_solver. }
    destruct (decide (n = g)) as [Hg|Hg].
    + destruct (inv_trail _ _ _ _ _ Hinv' n cur (lookup_insert_eq _ _ _))
        as (l & Hl & Hlen & Hroute).
      exists (rev (n :: l)). rewrite <- Hg. split; [|exact Hroute].
      now apply reconstruct_trail.
    + specialize (IH (q ++ [n]) (<[n := cur]> prev) ({[n]} ∪ seen) Hds'
                    ltac:(set_solver) Hinv').
      destruct (expand _ _ _ _ _ _ _ _); [exact IH|].
      destruct IH as [Hi Hsz]. split; [exact Hi|].
      rewrite length_app in Hsz. simpl in Hsz.
      rewrite size_union in Hsz by set_solver. rewrite size_singleton in Hsz. lia.
Qed.

Variable N : nat.
Hypothesis free_bounded :
  forall seen : gset (Z * Z), (forall c, c ∈ seen -> blockedAt c = false) -> (size seen <= N)%nat.

(** The loop ends within its budget, and a path it returns is a route. *)
Lemma bfs_spec fuel q prev seen :
  searchInv blockedAt s q prev seen ->
  (N + length q <= fuel + size seen)%nat ->
  exists r, bfs blockedAt s g fuel q prev seen = Some r /\
            forall path, r = Some path -> route blockedAt s path g.
Proof.
  revert q prev seen. induction fuel as [|fuel IH]; intros q prev seen Hinv Hfuel.
  - pose proof (free_bounded seen (inv_free _ _ _ _ _ Hinv)) as Hb.
    destruct q as [|cur q']; simpl in *; [|lia].
    exists None. split; [reflexivity|discriminate].
  - destruct q as [|cur q']; cbn [bfs].
    { exists None. split; [reflexivity|discriminate]. }
    assert (Hcur : cur ∈ seen) by (apply (inv_queue _ _ _ _ _ Hinv); set_solver).
    assert (Hinv' : searchInv blockedAt s q' prev seen).
    { destruct Hinv as [H1 H2 H3 H4]. split; auto. intros c Hc. apply H3. set_solver. }
    pose proof (expand_spec cur dirs q' prev seen (fun _ H => H) Hcur Hinv') as Hex.
    destruct (expand _ _ _ _ _ _ _ _) as [r|q2 prev2 seen2].
    + destruct Hex as (path & -> & Hroute).
      exists (Some path). split; [reflexivity|]. intros ? [= <-]. exact Hroute.
    + destruct Hex as [Hinv2 Hsz]. apply IH; auto. simpl in Hfuel. lia.
Qed.
End SearchFacts.

(** * The blocked predicate and the board *)

Lemma inRectHalfOpen_true x y r : inRectHalfOpen x y r = true <-> insideHalfOpen x y r.
Proof.
  unfold inRectHalfOpen, insideHalfOpen.
  rewrite !andb_true_iff, !Qltb_true, !Qle_bool_iff. tauto.
Qed.

Lemma isBlocked_true terrain boardSize x y :
  isBlocked terrain boardSize (x, y) = true <->
  offBoard boardSize x y \/
  exists t r, t ∈ terrain /\ r ∈ rects t /\ insideHalfOpen x y r.
Proof.
  unfold isBlocked, offBoard.
  destruct ((x <? 0) || (y <? 0) || (x >? boardSize) || (y >? boardSize)) eqn:E.
  - split; [intros _; left|reflexivity].
    rewrite !orb_true_iff in E. rewrite !Z.ltb_lt, !Z.gtb_gt in E. tauto.
  - rewrite !orb_false_iff in E. rewrite !Z.ltb_ge in E.
    destruct E as [[[E1 E2] E3] E4].
    assert (E3' : x <= boardSize) by (destruct (Z.gtb_spec x boardSize); [discriminate|lia]).
    assert (E4' : y <= boardSize) by (destruct (Z.gtb_spec y boardSize); [discriminate|lia]).
    rewrite existsb_exists. split.
    + intros (t & Ht & Hr). apply existsb_exists in Hr as (r & Hr & Hin).
      right. exists t, r. rewrite !list_elem_of_In. now rewrite <- inRectHalfOpen_true.
    + intros [H|(t & r & Ht & Hr & Hin)]; [lia|].
      exists t. split; [now apply list_elem_of_In|].
      apply existsb_exists. exists r. split; [now apply list_elem_of_In|].
      now apply inRectHalfOpen_true.
Qed.

Lemma isBlocked_false_onBoard terrain boardSize c :
  isBlocked terrain boardSize c = false ->
  0 <= c.1 <= boardSize /\ 0 <= c.2 <= boardSize.
Proof.
  destruct c as [x y]. intros H. simpl.
  destruct (Z_lt_dec x 0); [|destruct (Z_lt_dec y 0);
    [|destruct (Z_gt_dec x boardSize); [|destruct (Z_gt_dec y boardSize); [|lia]]]];
  exfalso; (assert (Hb : isBlocked terrain boardSize (x, y) = true)
              by (apply isBlocked_true; left; unfold offBoard; lia)); congruence.
Qed.

Lemma free_within_budget (terrain : list TerrainPiece) (boardSize : Z) (seen : gset (Z * Z)) :
  (forall c, c ∈ seen -> isBlocked terrain boardSize c = false) ->
  (size seen <= searchBudget boardSize)%nat.
Proof.
  intros Hfree.
  assert (Hincl : incl (elements seen) (boardNodes boardSize)).
  { intros [x y] Hc. apply list_elem_of_In, elem_of_elements in Hc.
    apply Hfree, isBlocked_false_onBoard in Hc. simpl in Hc.
    apply in_prod; apply list_elem_of_In, elem_of_seqZ; lia. }
  pose proof (NoDup_incl_length (proj1 (NoDup_ListNoDup _) (NoDup_elements seen)) Hincl)
    as Hlen.
  unfold size, set_size. simpl. etransitivity; [exact Hlen|].
  unfold boardNodes, searchBudget. rewrite length_prod, !length_seqZ.
  destruct (Z_le_dec 0 (boardSize + 1)).
  - rewrite Z2Nat.inj_mul by lia. lia.
  - assert (Z.to_nat (boardSize + 1) = 0%nat) as -> by lia. lia.
Qed.

Lemma searchInv_initial blockedAt s :
  blockedAt s = false -> searchInv blockedAt s [s] ∅ {[s]}.
Proof.
  intros Hs. split.
  - intros c. rewrite elem_of_singleton, lookup_empty. split; [auto|].
    intros [?|[? ?]]; [auto|discriminate].
  - intros c ->%elem_of_singleton. exact Hs.
  - intros c ->%list_elem_of_singleton. now apply elem_of_singleton.
  - intros k p Hk. rewrite lookup_empty in Hk. discriminate.
Qed.

(** The run of the pathfinder ends with a result, and a path in it is a
    route from the rounded start to the rounded goal. *)
Lemma findPathManhattan_run_spec start goal terrain boardSize :
  let s := (jsRound (vx start), jsRound (vy start)) in
  let g := (jsRound (vx goal), jsRound (vy goal)) in
  exists r, findPathManhattan_run start goal terrain boardSize = Some r /\
            forall path, r = Some path -> route (isBlocked terrain boardSize) s path g.
Proof.
  intros s g. unfold findPathManhattan_run. fold s g.
  destruct (isBlocked terrain boardSize s) eqn:Hs.
  { exists None. split; [reflexivity|discriminate]. }
  destruct (isBlocked terrain boardSize g) eqn:Hg.
  { exists None. split; [reflexivity|discriminate]. }
  destruct (decide (s = g)) as [Heq|Hne].
  { exists (Some [s]). split; [reflexivity|]. intros ? [= <-]. rewrite <- Heq.
    now apply route_start. }
  apply (bfs_spec _ s g (searchBudget boardSize)).
  - apply free_within_budget.
  - now apply searchInv_initial.
  - rewrite size_singleton. simpl. lia.
Qed.

(** C8. The blocked predicate is: off the board, or inside a terrain
    rectangle under the half-open test. The pathfinder always ends with a
    result. A path it returns holds no blocked cell, starts at the rounded
    start, ends at the rounded goal and moves one N/E/S/W step at a time; it
    returns null when the rounded start or goal is blocked and when no
    4-connected route of free cells exists. *)
Theorem findPath_sound (start goal : Vec2) (terrain : list TerrainPiece) (boardSize : Z) :
  let s := (jsRound (vx start), jsRound (vy start)) in
  let g := (jsRound (vx goal), jsRound (vy goal)) in
  let blockedAt := isBlocked terrain boardSize in
  (forall x y, blockedAt (x, y) = true <->
     offBoard boardSize x y \/
     exists t r, t ∈ terrain /\ r ∈ rects t /\ insideHalfOpen x y r) /\
  findPathManhattan_run start goal terrain boardSize
    = Some (findPathManhattan start goal terrain boardSize) /\
  (forall path, findPathManhattan start goal terrain boardSize = Some path ->
     Forall (fun c => blockedAt c = false) path /\
     head path = Some s /\ last path = Some g /\ stepwise path) /\
  (blockedAt s = true \/ blockedAt g = true ->
     findPathManhattan start goal terrain boardSize = None) /\
  ((forall path, ~ route blockedAt s path g) ->
     findPathManhattan start goal terrain boardSize = None).
Proof.
  intros s g blockedAt.
  destruct (findPathManhattan_run_spec start goal terrain boardSize) as (r & Hrun & Hroute).
  fold s g blockedAt in Hroute.
  assert (Hfind : findPathManhattan start goal terrain boardSize = r).
  { unfold findPathManhattan. now rewrite Hrun. }
  split; [intros x y; apply isBlocked_true|].
  split; [now rewrite Hfind|].
  split; [|split].
  - intros path Hp. rewrite Hfind in Hp. specialize (Hroute path Hp).
    split; [eapply route_free; eauto|].
    split; [eapply route_head; eauto|].
    split; [eapply route_last; eauto|eapply route_stepwise; eauto].
  - intros Hblocked. unfold findPathManhattan, findPathManhattan_run. fold s g blockedAt.
    destruct Hblocked as [-> | Hg]; [reflexivity|].
    destruct (blockedAt s); [reflexivity|]. now rewrite Hg.
  - intros Hnone. rewrite Hfind. destruct r as [path|]; [|reflexivity].
    exfalso. apply (Hnone path), Hroute. reflexivity.
Qed.

Lemma findPath_sound_witness :
  let wall := [mkTerrainPiece "H" HARD [mkRect 1 0 1 2]] in
  Forall (fun c => isBlocked wall 4 c = false)
    [(0, 0); (0, 1); (0, 2); (1, 2); (2, 2); (3, 2); (3, 1); (3, 0)] /\
  findPathManhattan (mkVec2 0 0) (mkVec2 1 0) wall 4 = None.
Proof.
  intros wall. split.
  - destruct (findPath_sound (mkVec2 0 0) (mkVec2 3 0) wall 4) as (_ & _ & Hpath & _).
    apply Hpath. vm_compute. reflexivity.
  - destruct (findPath_sound (mkVec2 0 0) (mkVec2 1 0) wall 4) as (_ & _ & _ & Hblocked & _).
    apply Hblocked. right. vm_compute. reflexivity.
Defined.

(* ===================================================================== *)
(** * Attack resolution *)
(* ===================================================================== *)

Lemma onlyRolled_refl w : onlyRolled w w.
Proof. unfold onlyRolled. auto. Qed.

Lemma onlyRolled_trans w1 w2 w3 : onlyRolled w1 w2 -> onlyRolled w2 w3 -> onlyRolled w1 w3.
Proof. unfold onlyRolled. intros (?&?&?) (?&?&?). repeat split; try congruence. lia. Qed.

Lemma bind_Some {A B} (m : M A) (f : A -> M B) w b w'' :
  (m ≫= f) w = Some (b, w'') <->
  exists a w', m w = Some (a, w') /\ f a w' = Some (b, w'').
Proof.
  unfold mbind, M_bind, bind. destruct (m w) as [[a w']|]; split.
  - eauto.
  - intros (a0 & w0 & [= <- <-] & H). exact H.
  - discriminate.
  - intros (a0 & w0 & H & _). discriminate.
Qed.

Lemma ret_Some {A} (a b : A) w w' : mret (M := M) a w = Some (b, w') <-> a = b /\ w' = w.
Proof. unfold mret, M_ret, ret. split; [intros [= -> ->]; auto|intros [-> ->]; auto]. Qed.

Lemma orRoll_spec o w :
  exists v w', orRoll o w = Some (v, w') /\ onlyRolled w w' /\
               (forall x, o = Some x -> v = x /\ w' = w).
Proof.
  destruct o as [x|]; simpl.
  - exists x, w. split; [reflexivity|]. split; [apply onlyRolled_refl|].
    intros ? [= ->]. auto.
  - eexists _, _. split; [reflexivity|]. split; [|discriminate].
    unfold onlyRolled. simpl. repeat split. lia.
Qed.

Lemma findCell_snd_member p l i c : findCell p l = Some (i, c) -> c ∈ l.
Proof.
  intros H. apply findCell_Some in H as (Hl & _). eapply list_elem_of_lookup_2; eauto.
Qed.

Lemma scatterStep_spec k at0 hm sc d w :
  exists fc log w', scatterStep k at0 hm sc d w = Some ((fc, log), w') /\
    onlyRolled w w' /\ (forall c, fc = Some c -> c ∈ cells (grid k)).
Proof.
  unfold scatterStep.
  destruct (orRoll_spec (o_red d) w) as (r & w1 & Hr & Hw1 & _).
  destruct (orRoll_spec (o_blue d) w1) as (b & w2 & Hb & Hw2 & _).
  unfold mbind, M_bind, bind. rewrite Hr, Hb.
  destruct (_ || _); eexists _, _, _; (split; [reflexivity|]);
    (split; [eapply onlyRolled_trans; eauto|]).
  - discriminate.
  - intros c Hc. destruct (findCell _ _) as [[i c']|] eqn:Hf; simpl in Hc; [|discriminate].
    inversion Hc; subst. eapply findCell_snd_member; eauto.
Qed.

Lemma rollWeaponDamage_spec wp d w :
  exists v w', rollWeaponDamage wp d w = Some (v, w') /\ onlyRolled w w'.
Proof.
  unfold rollWeaponDamage. destruct (damage wp) as [v|[|]].
  - exists v, w. split; [reflexivity|apply onlyRolled_refl].
  - destruct (o_damageD3 d) as [v|].
    + exists v, w. split; [reflexivity|apply onlyRolled_refl].
    + destruct (orRoll_spec (o_damageD6 d) w) as (r & w1 & Hr & Hw1 & _).
      unfold mbind, M_bind, bind. rewrite Hr. eexists _, _. split; [reflexivity|exact Hw1].
  - destruct (orRoll_spec (o_damageD6 d) w) as (r & w1 & Hr & Hw1 & _). eauto.
Qed.

Lemma wp_ret {A} (a : A) w (Q : A -> World -> Prop) : Q a w -> wp (mret a) w Q.
Proof. intros H. exists a, w. split; [reflexivity|exact H]. Qed.

Lemma wp_bind {A B} (m : M A) (f : A -> M B) w (Q : B -> World -> Prop) :
  wp m w (fun a w' => wp (f a) w' Q) -> wp (m ≫= f) w Q.
Proof.
  intros (a & w' & Hm & b & w'' & Hf & HQ). exists b, w''. split; [|exact HQ].
  apply bind_Some. eauto.
Qed.

Lemma wp_orRoll o w (Q : Z -> World -> Prop) :
  (forall v w', onlyRolled w w' -> (forall x, o = Some x -> v = x /\ w' = w) -> Q v w') ->
  wp (orRoll o) w Q.
Proof.
  intros H. destruct (orRoll_spec o w) as (v & w' & Hr & Hw & Ho).
  exists v, w'. split; [exact Hr|]. now apply H.
Qed.

Lemma wp_readKnight p w (Q : KnightState -> World -> Prop) :
  Q (getKnight p (knights w)) w -> wp (readKnight p) w Q.
Proof. intros H. eexists _, _. split; [reflexivity|exact H]. Qed.

Lemma wp_modifyKnight p f w (Q : unit -> World -> Prop) :
  Q tt {| knights := setKnight p (f (getKnight p (knights w))) (knights w);
          randoms := randoms w; cursor := cursor w |} ->
  wp (modifyKnight p f) w Q.
Proof. intros H. eexists _, _. split; [reflexivity|exact H]. Qed.

Lemma wp_scatterStep k at0 hm sc d w (Q : option GridCell * option ScatterLog -> World -> Prop) :
  (forall fc log w', onlyRolled w w' -> (forall c, fc = Some c -> c ∈ cells (grid k)) ->
                     Q (fc, log) w') ->
  wp (scatterStep k at0 hm sc d) w Q.
Proof.
  intros H. destruct (scatterStep_spec k at0 hm sc d w) as (fc & log & w' & Hs & Hw & Hfc).
  exists (fc, log), w'. split; [exact Hs|]. now apply H.
Qed.

Lemma wp_rollWeaponDamage wpn d w (Q : Z -> World -> Prop) :
  (forall v w', onlyRolled w w' -> Q v w') -> wp (rollWeaponDamage wpn d) w Q.
Proof.
  intros H. destruct (rollWeaponDamage_spec wpn d w) as (v & w' & Hr & Hw).
  exists v, w'. split; [exact Hr|]. now apply H.
Qed.

Lemma resolveAttackMutating_effect atan2Deg args w :
  wp (resolveAttackMutating atan2Deg args) w (attackEffect args w).
Proof.
  unfold resolveAttackMutating.
  set (dice := default noOverrides (diceOverrides args)).
  set (arc := incomingArc _ _ _ _).
  apply wp_bind, wp_readKnight.
  set (defender0 := getKnight (defender args) (knights w)).
  assert (Hmiss : forall t f r a sl w', onlyRolled w w' ->
                    attackEffect args w (MISS t f r a sl) w').
  { intros t f r a sl w' (Hk & Hr & _). split; [exact Hr|]. split; [auto|discriminate]. }
  assert (Hsaved : forall t f c a sb i ar sl w', onlyRolled w w' ->
                    attackEffect args w (SAVED t f c a sb i ar sl) w').
  { intros t f c a sb i ar sl w' (Hk & Hr & _). split; [exact Hr|]. split; [auto|discriminate]. }
  destruct (findCell (hasId (targetCellId args)) (cells (grid defender0)))
    as [[i0 startCell]|] eqn:Hstart.
  2: { apply wp_ret, Hmiss, onlyRolled_refl. }
  apply wp_bind.
  assert (Hscatter :
    wp (if scatter (weapon args)
        then scatterStep defender0 (attackType args)
               match arc with LEFT => -1 | RIGHT => 1 | _ => 0 end startCell dice
        else mret (Some startCell, None)) w
       (fun r w' => onlyRolled w w' /\ forall c, r.1 = Some c -> c ∈ cells (grid defender0))).
  { destruct (scatter (weapon args)).
    - apply wp_scatterStep. intros fc log w' Hw Hfc. split; auto.
    - apply wp_ret. split; [apply onlyRolled_refl|]. simpl. intros c [= <-].
      eapply findCell_snd_member; eauto. }
  destruct Hscatter as ([fc log] & w1 & Hrun & Hw1 & Hfc).
  exists (fc, log), w1. split; [exact Hrun|]. simpl in Hfc.
  destruct fc as [finalCell|]; [|apply wp_ret, Hmiss, Hw1].
  destruct (findCell_hasId_member _ _ (Hfc _ eq_refl)) as (live & liveCell & Hlive).
  rewrite Hlive.
  destruct (armorPoints liveCell <=? 0); [apply wp_ret, Hmiss, Hw1|].
  apply wp_bind.
  assert (Hion :
    wp (if scatter (weapon args) && bool_decide (arc = default FRONT (defenderIonShieldArc args))
        then ionDie ← orRoll (o_ionSave dice);
             mret (Some {| i_attempted := true; i_die := ionDie; i_needed := 4;
                           i_success := ionDie >=? 4 |})
        else mret None) w1
       (fun _ w' => onlyRolled w w')).
  { destruct (_ && _).
    - apply wp_bind, wp_orRoll. intros v w' Hw' _. apply wp_ret.
      eapply onlyRolled_trans; eauto.
    - apply wp_ret. exact Hw1. }
  destruct Hion as (ionSave & w2 & Hrun2 & Hw2).
  exists ionSave, w2. split; [exact Hrun2|].
  destruct (match ionSave with Some l => i_success l | None => false end);
    [apply wp_ret, Hsaved, Hw2|].
  apply wp_bind, wp_orRoll. intros saveDie w3 Hw3 _.
  assert (Hw3' : onlyRolled w w3) by (eapply onlyRolled_trans; eauto).
  destruct (_ >=? 5); [apply wp_ret, Hsaved, Hw3'|].
  apply wp_bind, wp_rollWeaponDamage. intros rolled w4 Hw4.
  assert (Hw4' : onlyRolled w w4) by (eapply onlyRolled_trans; eauto).
  apply wp_bind, wp_modifyKnight, wp_bind, wp_readKnight, wp_ret.
  destruct Hw4' as (Hk4 & Hr4 & _).
  split; [exact Hr4|]. split; [discriminate|]. intros _.
  cbn [finalCellIdOf damageOf knights].
  exists live, liveCell, (cell_id liveCell). split; [reflexivity|].
  apply findCell_Some in Hlive as Hl. destruct Hl as (_ & Hid & _).
  apply hasId_true in Hid. rewrite Hid. fold defender0. split; [exact Hlive|].
  split; [lia|]. rewrite Hk4. reflexivity.
Qed.

Lemma setKnight_other p q k ks : p <> q -> getKnight q (setKnight p k ks) = getKnight q ks.
Proof. destruct p, q; intros H; try reflexivity; congruence. Qed.

Lemma getKnight_setKnight p k ks : getKnight p (setKnight p k ks) = k.
Proof. destruct p; reflexivity. Qed.

(** C10. A resolution always returns. When its outcome is MISS or SAVED both
    Knight objects are exactly as before; when it is HIT the only change is
    the one [applyDamageToCell] on the defender's final cell, and an attacker
    that is not the defender is as before. *)
Theorem only_a_hit_mutates (atan2Deg : Q -> Q -> Q) (args : AttackArgs) (w : World) :
  exists o w',
    resolveAttackMutating atan2Deg args w = Some (o, w') /\
    (isHit o = false -> knights w' = knights w) /\
    (isHit o = true ->
       exists live liveCell id,
         finalCellIdOf o = Some id /\
         findCell (hasId id) (cells (grid (getKnight (defender args) (knights w))))
           = Some (live, liveCell) /\
         knights w'
         = setKnight (defender args)
             (applyDamageToCell (getKnight (defender args) (knights w)) live (damageOf o))
             (knights w) /\
         (attacker args <> defender args ->
            getKnight (attacker args) (knights w') = getKnight (attacker args) (knights w))).
Proof.
  destruct (resolveAttackMutating_effect atan2Deg args w) as (o & w' & Hrun & _ & Hmiss & Hhit).
  exists o, w'. split; [exact Hrun|]. split; [exact Hmiss|].
  intros Ho. destruct (Hhit Ho) as (live & liveCell & id & Hid & Hf & _ & Hk).
  exists live, liveCell, id. repeat (split; [assumption|]).
  intros Hne. rewrite Hk. apply setKnight_other. congruence.
Qed.

Lemma only_a_hit_mutates_witness :
  (exists o, resolveAttackMutating compassAtan2Deg
               (sampleArgs noArmourBonus AIMED "B3" (scenarioDice 3 3 1 6)) sampleWorld
             = Some (o, sampleWorld)) /\
  (exists o w', resolveAttackMutating compassAtan2Deg
               (sampleArgs noArmourBonus AIMED "B3" (scenarioDice 3 3 1 2)) sampleWorld
             = Some (o, w') /\
             getKnight P1 (knights w') = sampleKnight /\
             getKnight P2 (knights w') = applyDamageToCell sampleKnight 6 2).
Proof.
  split.
  - destruct (only_a_hit_mutates compassAtan2Deg
                (sampleArgs noArmourBonus AIMED "B3" (scenarioDice 3 3 1 6)) sampleWorld)
      as (o & w' & Hrun & Hmiss & _).
    exists o. rewrite Hrun.
    assert (Ho : isHit o = false) by (vm_compute in Hrun; now inversion Hrun).
    specialize (Hmiss Ho).
    assert (Hc : cursor w' = cursor sampleWorld) by (vm_compute in Hrun; now inversion Hrun).
    assert (Hr : randoms w' = randoms sampleWorld) by (vm_compute in Hrun; now inversion Hrun).
    destruct w'; simpl in *; subst; reflexivity.
  - destruct (only_a_hit_mutates compassAtan2Deg
                (sampleArgs noArmourBonus AIMED "B3" (scenarioDice 3 3 1 2)) sampleWorld)
      as (o & w' & Hrun & _ & Hhit).
    exists o, w'. split; [exact Hrun|].
    assert (Ho : isHit o = true) by (vm_compute in Hrun; now inversion Hrun).
    destruct (Hhit Ho) as (live & liveCell & id & Hid & Hf & Hk & Hatt).
    split; [apply Hatt; discriminate|].
    rewrite Hk. simpl.
    assert (Hd : damageOf o = 2) by (vm_compute in Hrun; now inversion Hrun).
    assert (Hi : id = "B3") by (vm_compute in Hrun; inversion Hrun; subst; now inversion Hid).
    subst id. vm_compute in Hf. inversion Hf; subst. rewrite Hd. reflexivity.
Defined.

(** C3, as amended. With the target cell at (0,0), a SNAP scatter attack from
    the FRONT arc with red die 1 and blue die 1 shifts LEFT by 3 squares and
    UP by 3 squares, both coordinates become negative, and the outcome is MISS
    with the off-grid reason and a null final cell; the world is unchanged. *)
Theorem scenario_B_scatter_off_grid (atan2Deg : Q -> Q -> Q) (args : AttackArgs) (w : World)
    (i : nat) (startCell : GridCell) (d : DiceOverrides) :
  scatter (weapon args) = true ->
  attackType args = SNAP ->
  incomingArc atan2Deg (defenderPos args) (defenderFacingDeg args) (attackerPos args) = FRONT ->
  diceOverrides args = Some d -> o_red d = Some 1 -> o_blue d = Some 1 ->
  findCell (hasId (targetCellId args)) (cells (grid (getKnight (defender args) (knights w))))
    = Some (i, startCell) ->
  cell_x startCell = 0 -> cell_y startCell = 0 ->
  horizontalShift SNAP 1 = (H_LEFT, 3) /\
  verticalShift SNAP 1 = (V_UP, 3) /\
  cell_x startCell - 3 < 0 /\ cell_y startCell - 3 < 0 /\
  resolveAttackMutating atan2Deg args w
  = Some (MISS (targetCellId args) None "Scatter moved shot off-grid." FRONT
            (Some {| s_red := 1; s_redRaw := None; s_blue := 1;
                     s_horizSymbol := "[←←←]"; s_vertSymbol := "[↑↑↑]";
                     s_horizShift := 3; s_vertShift := 3 |}), w).
Proof.
  intros Hsc Hat Harc Hd Hred Hblue Hstart Hx Hy.
  split; [reflexivity|]. split; [reflexivity|]. split; [lia|]. split; [lia|].
  unfold resolveAttackMutating. rewrite Harc, Hd, Hsc, Hat. simpl.
  unfold mbind, M_bind, bind, readKnight. rewrite Hstart.
  unfold scatterStep. rewrite Hred, Hblue. simpl.
  unfold mbind, M_bind, bind. simpl. rewrite Hx, Hy. simpl. reflexivity.
Qed.

Lemma scenario_B_scatter_off_grid_witness :
  resolveAttackMutating compassAtan2Deg
    (sampleArgs noArmourBonus SNAP "A1" (scenarioDice 1 1 1 1)) sampleWorld
  = Some (MISS "A1" None "Scatter moved shot off-grid." FRONT
            (Some {| s_red := 1; s_redRaw := None; s_blue := 1;
                     s_horizSymbol := "[←←←]"; s_vertSymbol := "[↑↑↑]";
                     s_horizShift := 3; s_vertShift := 3 |}), sampleWorld).
Proof.
  apply (scenario_B_scatter_off_grid compassAtan2Deg
           (sampleArgs noArmourBonus SNAP "A1" (scenarioDice 1 1 1 1)) sampleWorld
           0%nat (mkGridCell "A1" 0 0 G3 2 2 false) (scenarioDice 1 1 1 1));
    reflexivity.
Defined.

(** C3, as stated, fails: in scenario B the horizontal shift that the engine
    logs is 3 squares, not 2. *)
Lemma scenario_B_shift_is_not_2 :
  ~ (exists o w',
       resolveAttackMutating compassAtan2Deg
         (sampleArgs noArmourBonus SNAP "A1" (scenarioDice 1 1 1 1)) sampleWorld
       = Some (o, w') /\
       s_horizShift <$> scatterLogOf o = Some 2).
Proof.
  intros (o & w' & Hrun & Hshift). vm_compute in Hrun. inversion Hrun; subst.
  simpl in Hshift. discriminate.
Qed.

Lemma resolveAttackMutating_ignores_bonus atan2Deg args b :
  resolveAttackMutating atan2Deg (withArmourSaveBonus b args)
  = resolveAttackMutating atan2Deg args.
Proof. reflexivity. Qed.

(** C1 at a failing input. The defender rotated its ion shields earlier in the
    turn, so the call carries the bonus 1; a save die of 4 against AP 0 without
    cover would total 5 with the bonus. The engine totals 4 and the attack
    hits. *)
Theorem rotate_bonus_not_added :
  let '(rotated, bonus) :=
    rotateIonShieldsStep [P2] (knights sampleWorld) noArmourBonus in
  let args := sampleArgs bonus AIMED "B3" (scenarioDice 3 3 1 4) in
  rotated = [P2] /\ defenderArmourSaveBonus args = 1 /\
  exists o w',
    resolveAttackMutating compassAtan2Deg args sampleWorld = Some (o, w') /\
    isHit o = true /\
    armourSaveOf o = Some {| a_roll := 4; a_die := 4; a_needed := 5;
                             a_mods_ap := 0; a_mods_cover := false |}.
Proof.
  vm_compute. repeat split. eexists _, _. repeat split.
Qed.

(** C2 at a failing input. A group-4 critical revoked the defender's
    capability flag; the next ranged attack into the front arc still rolls the
    ion save and is saved by it. *)
Theorem ion_save_rolled_after_revocation :
  let defender0 := applyDamageToCell sampleKnight 6 2 in
  let w := {| knights := mkKnights sampleKnight defender0;
              randoms := fun _ => 0%Q; cursor := 0 |} in
  let args := sampleArgs noArmourBonus AIMED "B2" (scenarioDice 3 3 5 1) in
  canRotateIonShields defender0 = false /\
  resolveAttackMutating compassAtan2Deg args w
  = Some (SAVED "B2" "B2" "B2" FRONT ION
            (Some {| i_attempted := true; i_die := 5; i_needed := 4; i_success := true |})
            None
            (Some {| s_red := 3; s_redRaw := None; s_blue := 3;
                     s_horizSymbol := "[+]"; s_vertSymbol := "[+]";
                     s_horizShift := 0; s_vertShift := 0 |}), w).
Proof. vm_compute. split; reflexivity. Qed.

(* ===================================================================== *)
(** * Damage model: the cell invariants *)
(* ===================================================================== *)

Lemma resolveAttackMutating_armorInRange atan2Deg args w o w' p :
  resolveAttackMutating atan2Deg args w = Some (o, w') ->
  armorInRange (getKnight p (knights w)) -> armorInRange (getKnight p (knights w')).
Proof.
  intros Hrun Hk.
  destruct (resolveAttackMutating_effect atan2Deg args w) as (o0 & w0 & Hrun0 & _ & Hmiss & Hhit).
  rewrite Hrun in Hrun0. inversion Hrun0; subst o0 w0.
  destruct (isHit o) eqn:Ho.
  - destruct (Hhit eq_refl) as (live & liveCell & id & _ & _ & Hd & ->).
    destruct (decide (defender args = p)) as [<-|Hne].
    + rewrite getKnight_setKnight. now apply applyDamageToCell_armorInRange.
    + now rewrite setKnight_other.
  - now rewrite (Hmiss eq_refl).
Qed.

Lemma applyDamageToCell_knockedOut_cell k i c dmg :
  cellRef k i c -> criticallyDamaged c = false -> armorPoints c - dmg <= 0 ->
  cells (grid (applyDamageToCell k i dmg)) !! i = Some (knockedOut c).
Proof.
  intros Href Hc Hle. rewrite (applyDamageToCell_knocksOut k i c dmg Href Hc Hle).
  rewrite groupEffect_cells_lookup. simpl. apply list_lookup_insert_eq.
  apply findCell_Some in Href as (Hl & _). now apply lookup_lt_Some in Hl.
Qed.

(** C4. Every operation of the damage model keeps each cell's armour points
    within [0, maxArmorPoints] (damage amounts are non-negative; attack
    resolution, the caller, floors them at 0 and so keeps the bound for any
    dice and weapon), and keeps a set critical flag set. Damage to a cell that
    is already critical changes nothing at all. Damage that takes a
    non-critical cell to 0 leaves it at exactly 0 armour with the flag set and
    applies the effect of its group once: the result is the one application
    of the group effect, and any further damage to that cell is a no-op.
    Damage that leaves armour above 0 only lowers the armour points. *)
Theorem damage_model_cell_invariants :
  (forall k k', damageOp k k' -> armorInRange k -> armorInRange k') /\
  (forall k k', damageOp k k' -> gridEvolves k k') /\
  (forall k i c dmg,
     cells (grid k) !! i = Some c -> criticallyDamaged c = true ->
     applyDamageToCell k i dmg = k) /\
  (forall k i c dmg,
     cellRef k i c -> criticallyDamaged c = false -> armorPoints c - dmg <= 0 ->
     let k' := applyDamageToCell k i dmg in
     k' = groupEffect (writeCell i (knockedOut c) k) (group c) /\
     cells (grid k') !! i = Some (knockedOut c) /\
     forall dmg', applyDamageToCell k' i dmg' = k') /\
  (forall k i c dmg,
     cells (grid k) !! i = Some c -> criticallyDamaged c = false ->
     0 < armorPoints c - dmg ->
     applyDamageToCell k i dmg
     = writeCell i (set_armorPoints (armorPoints c - dmg) c) k) /\
  (forall atan2Deg args w o w' p,
     resolveAttackMutating atan2Deg args w = Some (o, w') ->
     armorInRange (getKnight p (knights w)) -> armorInRange (getKnight p (knights w'))).
Proof.
  split; [exact damageOp_armorInRange|].
  split; [exact damageOp_gridEvolves|].
  split; [exact applyDamageToCell_critical|].
  split; [|split; [exact applyDamageToCell_survives|exact resolveAttackMutating_armorInRange]].
  intros k i c dmg Href Hc Hle k'.
  split; [now apply applyDamageToCell_knocksOut|].
  assert (Hcell : cells (grid k') !! i = Some (knockedOut c))
    by now apply applyDamageToCell_knockedOut_cell.
  split; [exact Hcell|].
  intros dmg'. now apply (applyDamageToCell_critical k' i (knockedOut c)).
Qed.

Lemma damage_model_cell_invariants_witness :
  armorInRange (applyDamageToCell sampleKnight 8 5) /\
  movementPenalty (applyDamageToCell sampleKnight 8 5) = 1 /\
  applyDamageToCell (applyDamageToCell sampleKnight 8 5) 8 7
  = applyDamageToCell sampleKnight 8 5.
Proof.
  destruct damage_model_cell_invariants as (Hrange & _ & _ & Hzero & _ & _).
  assert (Href : cellRef sampleKnight 8 (mkGridCell "C2" 1 2 G8 2 2 false)) by reflexivity.
  destruct (Hzero sampleKnight 8%nat _ 5 Href eq_refl ltac:(simpl; lia)) as (Hk & _ & Hagain).
  split; [|split].
  - apply (Hrange sampleKnight).
    + apply op_applyDamage. lia.
    + unfold armorInRange. simpl. repeat (constructor; [simpl; lia|]). constructor.
  - rewrite Hk. reflexivity.
  - apply Hagain.
Defined.
